(** * InstrumentKit: the ThorLabs packet query loop and the perpendicular
      axis collection

    A shallow embedding of

    - [instruments/thorlabs/_abstract.py]: [ThorLabsInstrument.sendpacket]
      and [ThorLabsInstrument.querypacket];
    - [instruments/abstract_instruments/axis/perp_ac.py]: the class
      [PerpendicularAC].

    Python floats (clock readings, durations, coordinates) are modelled as
    rationals; every reading of the wall clock and every read of the
    transport is taken from an oracle indexed by the number of readings
    made so far. *)

From Stdlib Require Import ZArith QArith List String DecimalString Bool Lia Arith.
From Stdlib Require Import Permutation.
Import ListNotations.

Set Implicit Arguments.

(** ** Python exceptions and results *)

Inductive exn : Type :=
| IOError (msg : string)
| ValueError (msg : string)
| AttributeError (attr : string)
| TransportError (msg : string)
| AxisError (msg : string).

Inductive outcome (A : Type) : Type :=
| Return (a : A)
| Raise (e : exn).

Arguments Return {A} a.
Arguments Raise {A} e.

(** [str.format] on an integer argument. *)
Definition format_int (z : Z) : string :=
  NilZero.string_of_int (Z.to_int z).

(** [a < b] on clock readings. *)
Definition Qlt_bool (a b : Q) : bool := negb (Qle_bool b a).

(** * ThorLabs instruments *)

Module ThorLabs.

Definition bytes := list Byte.byte.

(** Truth value of a byte string: non-empty. *)
Definition truthy_bytes (b : bytes) : bool :=
  match b with
  | [] => false
  | _ :: _ => true
  end.

(** The [timeout] argument of [querypacket]: [None], a [bool], a bare
    number, or a unitful quantity given by its magnitude and by the length
    of its unit in seconds. *)
Inductive timeout_arg : Type :=
| TNone
| TBool (b : bool)
| TNumber (q : Q)
| TQuantity (magnitude : Q) (unit_in_seconds : Q).

Definition Qnonzero (q : Q) : bool := negb (Qeq_bool q 0).

(** [if timeout:] *)
Definition truthy_timeout (t : timeout_arg) : bool :=
  match t with
  | TNone => false
  | TBool b => b
  | TNumber q => Qnonzero q
  | TQuantity m _ => Qnonzero m
  end.

(** [assume_units(timeout, second).rescale('second').magnitude] *)
Definition seconds_magnitude (t : timeout_arg) : Q :=
  match t with
  | TNone => 0
  | TBool b => if b then 1 else 0
  | TNumber q => q
  | TQuantity m u => m * u
  end.

(** The first statement of [querypacket] after the clock reading. *)
Definition normalize_timeout (t : timeout_arg) : timeout_arg :=
  if truthy_timeout t then TNumber (seconds_magnitude t) else t.

(** [timeout is None] *)
Definition is_none (t : timeout_arg) : bool :=
  match t with
  | TNone => true
  | _ => false
  end.

(** The number a timeout stands for on the right of [>]: [False] is [0]
    and [True] is [1], as for every Python [bool]. *)
Definition as_number (t : timeout_arg) : Q := seconds_magnitude t.

(** The byte-stream transport and the wall clock, as oracles. *)
Record transport : Type := {
  read_result : nat -> outcome bytes;
  write_result : nat -> bytes -> outcome unit
}.

(** What a run has done so far: the byte strings written, the number of
    reads and the number of clock readings. *)
Record io : Type := {
  written : list bytes;
  reads : nat;
  ticks : nat
}.

Definition io_start : io := {| written := []; reads := 0; ticks := 0 |}.

Section Instrument.

Variable Packet : Type.
Variable pack : Packet -> bytes.
Variable unpack : bytes -> outcome Packet.
Variable message_id : Packet -> Z.

Variable file : transport.
Variable clock : nat -> Q.

(** [time.time()] *)
Definition time_time (s : io) : Q * io :=
  (clock (ticks s),
   {| written := written s; reads := reads s; ticks := S (ticks s) |}).

(** [self._file.write_raw(b)] *)
Definition write_raw (b : bytes) (s : io) : outcome unit * io :=
  (write_result file (List.length (written s)) b,
   {| written := written s ++ [b]; reads := reads s; ticks := ticks s |}).

(** [self._file.read_raw()] *)
Definition read_raw (s : io) : outcome bytes * io :=
  (read_result file (reads s),
   {| written := written s; reads := S (reads s); ticks := ticks s |}).

Definition sendpacket (packet : Packet) (s : io) : outcome unit * io :=
  write_raw (pack packet) s.

(** The [while True:] loop of [querypacket]; [None] when the fuel runs out
    before the loop breaks. *)
Fixpoint retry_loop (fuel : nat) (packet : Packet) (timeout : timeout_arg)
    (t_start : Q) (s : io) : option (outcome bytes * io) :=
  match fuel with
  | O => None
  | S fuel' =>
    match write_raw (pack packet) s with
    | (Raise e, s1) => Some (Raise e, s1)
    | (Return _, s1) =>
      match read_raw s1 with
      | (Raise e, s2) => Some (Raise e, s2)
      | (Return resp, s2) =>
        if truthy_bytes resp || is_none timeout then Some (Return resp, s2)
        else
          let (tic, s3) := time_time s2 in
          if Qlt_bool (as_number timeout) (tic - t_start)
          then Some (Return resp, s3)
          else retry_loop fuel' packet timeout t_start s3
      end
    end
  end.

(** The statements of [querypacket] after the loop. *)
Definition resolve (resp : bytes) (expect : option Z)
    : outcome (option Packet) :=
  if negb (truthy_bytes resp) then
    match expect with
    | None => Return None
    | Some e =>
      Raise (IOError ("Expected packet " ++ format_int e
                      ++ ", got nothing instead.")%string)
    end
  else
    match unpack resp with
    | Raise e => Raise e
    | Return pkt =>
      match expect with
      | Some e =>
        if negb (message_id pkt =? e)%Z then
          Raise (IOError ("APT returned message ID "
                          ++ format_int (message_id pkt)
                          ++ ", expected " ++ format_int e)%string)
        else Return (Some pkt)
      | None => Return (Some pkt)
      end
    end.

Definition querypacket (fuel : nat) (packet : Packet) (expect : option Z)
    (timeout : timeout_arg) (s : io)
    : option (outcome (option Packet) * io) :=
  let (t_start, s0) := time_time s in
  let timeout := normalize_timeout timeout in
  match retry_loop fuel packet timeout t_start s0 with
  | None => None
  | Some (Raise e, s1) => Some (Raise e, s1)
  | Some (Return resp, s1) => Some (resolve resp expect, s1)
  end.

(** The retry loop of a call ends, in state [s1], with [resp] as the last
    thing read. *)
Definition loop_ends_with (fuel : nat) (packet : Packet)
    (timeout : timeout_arg) (s : io) (resp : bytes) (s1 : io) : Prop :=
  retry_loop fuel packet (normalize_timeout timeout)
             (fst (time_time s)) (snd (time_time s))
  = Some (Return resp, s1).

End Instrument.

(** A transport on which nothing ever arrives, and a clock that advances by
    one second at every reading. *)
Definition silent : transport :=
  {| read_result := fun _ => Return [];
     write_result := fun _ _ => Return tt |}.

Definition ticking (k : nat) : Q := inject_Z (Z.of_nat k).

(** A transport that answers every read with the same bytes. *)
Definition answering (b : bytes) : transport :=
  {| read_result := fun _ => Return b;
     write_result := fun _ _ => Return tt |}.

(** Packets that are their own wire form, identified by their length. *)
Definition wire (b : bytes) : bytes := b.
Definition parse (b : bytes) : outcome bytes := Return b.
Definition ident (b : bytes) : Z := Z.of_nat (List.length b).

(** A transport on which [b] arrives at the read of index [k], nothing
    before. *)
Definition replying_at (k : nat) (b : bytes) : transport :=
  {| read_result := fun i => if (i <? k)%nat then Return [] else Return b;
     write_result := fun _ _ => Return tt |}.

End ThorLabs.

(** * Perpendicular axis collections *)

Module PerpAC.

Local Open Scope nat_scope.

(** ** The part of numpy that [_raster] uses *)

(** An n-dimensional array: its shape and its items by multi-index. *)
Record ndarray : Type := {
  shape : list nat;
  item : list nat -> Q
}.

(** Number of items of an array of shape [sh]; also [np.prod]. *)
Definition prod (sh : list nat) : nat := fold_right Nat.mul 1 sh.

(** Row-major (C order) position of a multi-index, and back. *)
Fixpoint ravel (sh idx : list nat) : nat :=
  match sh, idx with
  | _ :: rest, i :: idx' => i * prod rest + ravel rest idx'
  | _, _ => 0
  end.

Fixpoint unravel (sh : list nat) (k : nat) : list nat :=
  match sh with
  | [] => []
  | _ :: rest => k / prod rest :: unravel rest (k mod prod rest)
  end.

(** [np.linspace(a, b, num=num)], endpoint included. *)
Definition linspace (a b : Q) (num : nat) : list Q :=
  match num with
  | 0 => []
  | 1 => [a]
  | _ =>
    map (fun i => Qred (a + inject_Z (Z.of_nat i)
                            * ((b - a) / inject_Z (Z.of_nat (num - 1))))%Q)
        (seq 0 num)
  end.

Definition swap01 (A : Type) (l : list A) : list A :=
  match l with
  | a :: b :: rest => b :: a :: rest
  | _ => l
  end.

(** [np.meshgrid] on the unpacked list [xs], with the default ['xy']
    indexing: one array per input, all of the shape of the input lengths
    with the first two swapped; the i-th array repeats the i-th input along
    its own axis. *)
Definition meshgrid (xs : list (list Q)) : list ndarray :=
  map (fun i =>
         {| shape := swap01 (map (@List.length Q) xs);
            item := fun idx => nth (nth i (swap01 idx) 0) (nth i xs []) 0%Q |})
      (seq 0 (List.length xs)).

Definition empty_array : ndarray :=
  {| shape := [0]; item := fun _ => 0%Q |}.

(** [np.array(arrs)] on a list of arrays of one shape: stacked along a new
    first axis. *)
Definition np_array (arrs : list ndarray) : ndarray :=
  match arrs with
  | [] => empty_array
  | a :: _ =>
    {| shape := List.length arrs :: shape a;
       item := fun idx =>
                 match idx with
                 | [] => 0%Q
                 | i :: idx' => item (nth i arrs empty_array) idx'
                 end |}
  end.

(** [a.transpose()]: all axes reversed. *)
Definition transpose (a : ndarray) : ndarray :=
  {| shape := rev (shape a); item := fun idx => item a (rev idx) |}.

(** [a.reshape(newshape)] *)
Definition reshape (a : ndarray) (newshape : list nat) : outcome ndarray :=
  if prod (shape a) =? prod newshape then
    Return {| shape := newshape;
              item := fun idx => item a (unravel (shape a) (ravel newshape idx)) |}
  else Raise (ValueError "total size of new array must be unchanged").

(** The rows of a two-dimensional array, as a [for] loop visits them. *)
Definition rows (a : ndarray) : list (list Q) :=
  match shape a with
  | [nrows; ncols] =>
    map (fun r => map (fun c => item a [r; c]) (seq 0 ncols)) (seq 0 nrows)
  | _ => []
  end.

(** ** Axis collections *)

(** What every axis collection exposes to readers. *)
Record AxisCollection : Type := {
  ac_position : list Q;
  ac_limits : list (Q * Q);
  ac_units : list string;
  ac_len : nat;
  ac_is_hardware_scannable : Z
}.

Record PerpendicularAC : Type := {
  _major_axes : AxisCollection;
  _minor_axes : AxisCollection;
  _n_major_axes : nat;
  _n_minor_axes : nat
}.

Definition __init__ (major_axes minor_axes : AxisCollection)
    : PerpendicularAC :=
  {| _major_axes := major_axes;
     _minor_axes := minor_axes;
     _n_major_axes := ac_len major_axes;
     _n_minor_axes := ac_len minor_axes |}.

(** The property evaluates the minor collection and drops it: the body
    has no [return]. *)
Definition finest_axes (self : PerpendicularAC) : option AxisCollection :=
  let _ := _minor_axes self in None.

Definition is_hardware_scannable (self : PerpendicularAC) : Z :=
  (ac_is_hardware_scannable (_major_axes self)
   + ac_is_hardware_scannable (_minor_axes self))%Z.

Definition limits (self : PerpendicularAC) : list (Q * Q) :=
  ac_limits (_major_axes self) ++ ac_limits (_minor_axes self).

Definition position (self : PerpendicularAC) : list Q :=
  ac_position (_major_axes self) ++ ac_position (_minor_axes self).

Definition units (self : PerpendicularAC) : list string :=
  ac_units (_major_axes self) ++ ac_units (_minor_axes self).

Definition __len__ (self : PerpendicularAC) : nat :=
  _n_major_axes self + _n_minor_axes self.

(** A composite is an axis collection again, so composites nest. *)
Definition as_collection (self : PerpendicularAC) : AxisCollection :=
  {| ac_position := position self;
     ac_limits := limits self;
     ac_units := units self;
     ac_len := __len__ self;
     ac_is_hardware_scannable := is_hardware_scannable self |}.

(** ** Calls that leave the composite *)

Inductive side : Type := Major | Minor.

(** A call on one of the two sub-collections, or one of the scan hooks of
    the base class.  [absolute] is [None] where the caller leaves the
    keyword out. *)
Inductive event : Type :=
| Move (s : side) (position : list Q) (absolute : option bool)
| Raster (s : side) (start stop : list Q) (num : list nat)
         (dwell_time : option Q)
| OnScanStart (coords : list (list Q)) (dwell_time : option Q)
| OnScanStep (coord : list Q) (dwell_time : option Q)
| OnScanComplete (coords : list (list Q)) (dwell_time : option Q).

(** What an instance attribute holds. *)
Inductive attribute : Type :=
| Axes (s : side)
| Count (n : nat).

(** [self.<name>] on the attributes that [__init__] sets. *)
Definition getattr (self : PerpendicularAC) (name : string)
    : outcome attribute :=
  if String.eqb name "_major_axes" then Return (Axes Major)
  else if String.eqb name "_minor_axes" then Return (Axes Minor)
  else if String.eqb name "_n_major_axes" then Return (Count (_n_major_axes self))
  else if String.eqb name "_n_minor_axes" then Return (Count (_n_minor_axes self))
  else Raise (AttributeError name).

(** [izip] on the unpacked [coords]: the points of a scan, as many as the shortest
    sequence has. *)
Definition izip_star (coords : list (list Q)) : list (list Q) :=
  match coords with
  | [] => []
  | c :: cs =>
    map (fun k => map (fun col => nth k col 0%Q) coords)
        (seq 0 (fold_right Nat.min (List.length c) (map (@List.length Q) cs)))
  end.

(** [izip(a, b, c, d)] *)
Fixpoint izip4 (A B C D : Type) (a : list A) (b : list B) (c : list C)
    (d : list D) : list (A * B * C * D) :=
  match a, b, c, d with
  | x :: a', y :: b', z :: c', w :: d' => (x, y, z, w) :: izip4 a' b' c' d'
  | _, _, _, _ => []
  end.

Section Composite.

(** The magnitude of what [assume_units(value, unit)] yields; the function
    lives in [instruments.util_fns]. *)
Variable assume_units : Q -> string -> Q.

(** How the sub-collections and the hooks answer: whether a call made after
    the calls of [history] raises. *)
Variable behaviour : list event -> event -> option exn.

(** A computation: from the calls made so far to a result and the calls
    made after it. *)
Definition M (A : Type) : Type := list event -> outcome A * list event.

Definition ret (A : Type) (a : A) : M A := fun h => (Return a, h).

Definition raise (A : Type) (e : exn) : M A := fun h => (Raise e, h).

Definition bind (A B : Type) (m : M A) (f : A -> M B) : M B :=
  fun h =>
    match m h with
    | (Return a, h') => f a h'
    | (Raise e, h') => (Raise e, h')
    end.

Definition call (e : event) : M unit :=
  fun h =>
    (match behaviour h e with
     | Some x => Raise x
     | None => Return tt
     end, h ++ [e]).

Fixpoint for_each (A : Type) (l : list A) (body : A -> M unit) : M unit :=
  match l with
  | [] => ret tt
  | x :: l' => bind (body x) (fun _ => for_each l' body)
  end.

(** [self.<name>] where a sub-collection is expected. *)
Definition axes_attr (self : PerpendicularAC) (name : string) : M side :=
  match getattr self name with
  | Return (Axes s) => ret s
  | Return (Count _) => raise side (AttributeError "move")
  | Raise e => raise side e
  end.

Definition _move (self : PerpendicularAC) (position : list Q)
    (absolute : bool) : M unit :=
  let major_pos := firstn (_n_major_axes self) position in
  let minor_pos := skipn (_n_major_axes self) position in
  bind (axes_attr self "_major_axes") (fun major =>
  bind (call (Move major major_pos (Some absolute))) (fun _ =>
  bind (axes_attr self "_minor_axes") (fun minor =>
  call (Move minor minor_pos (Some absolute))))).

Definition _scan (self : PerpendicularAC) (coords : list (list Q))
    (dwell_time : option Q) : M unit :=
  bind (call (OnScanStart coords dwell_time)) (fun _ =>
  bind (for_each (izip_star coords) (fun coord =>
          bind (_move self coord true) (fun _ =>
          call (OnScanStep coord dwell_time)))) (fun _ =>
  call (OnScanComplete coords dwell_time))).

(** The grids of the major axes, one per axis. *)
Definition major_axis_steps (self : PerpendicularAC)
    (start stop : list Q) (num : list nat) : list (list Q) :=
  let major_start := firstn (_n_major_axes self) start in
  let major_stop := firstn (_n_major_axes self) stop in
  let major_num := firstn (_n_major_axes self) num in
  map (fun '(m_start, m_stop, m_num, unit) =>
         linspace (assume_units m_start unit) (assume_units m_stop unit) m_num)
      (izip4 major_start major_stop major_num (ac_units (_major_axes self))).

(** The coordinates the loop of [_raster] goes through. *)
Definition major_axes_grid (self : PerpendicularAC)
    (start stop : list Q) (num : list nat) : outcome (list (list Q)) :=
  let major_num := firstn (_n_major_axes self) num in
  let grid :=
    transpose (np_array (meshgrid (major_axis_steps self start stop num))) in
  match reshape grid [prod major_num; _n_major_axes self] with
  | Return grid' => Return (rows grid')
  | Raise e => Raise e
  end.

Definition _raster (self : PerpendicularAC) (start stop : list Q)
    (num : list nat) (dwell_time : option Q) (strict : bool) : M unit :=
  let minor_start := skipn (_n_major_axes self) start in
  let minor_stop := skipn (_n_major_axes self) stop in
  let minor_num := skipn (_n_major_axes self) num in
  match major_axes_grid self start stop num with
  | Raise e => raise unit e
  | Return grid =>
    for_each grid (fun coord =>
      bind (axes_attr self "_major_axis") (fun major =>
      bind (call (Move major coord None)) (fun _ =>
      bind (axes_attr self "_minor_axis") (fun minor =>
      call (Raster minor minor_start minor_stop minor_num dwell_time)))))
  end.

End Composite.

(** ** What the design document describes *)

(** The full Cartesian product of the grids, the first axis varying
    slowest. *)
Fixpoint typewriter (grids : list (list Q)) : list (list Q) :=
  match grids with
  | [] => [[]]
  | g :: rest => flat_map (fun a => map (cons a) (typewriter rest)) g
  end.

(** The full Cartesian product of the grids, the last axis varying
    slowest. *)
Fixpoint last_slowest (grids : list (list Q)) : list (list Q) :=
  match grids with
  | [] => [[]]
  | g :: rest => flat_map (fun t => map (fun a => a :: t) g) (last_slowest rest)
  end.

(** The order in which the grid that [_raster] builds lists the product:
    the first two axes in typewriter order, inside the loops over the
    later axes, of which the last is the slowest. *)
Definition meshgrid_order (grids : list (list Q)) : list (list Q) :=
  match grids with
  | g1 :: g2 :: rest =>
    flat_map (fun t => flat_map (fun a => map (fun b => a :: b :: t) g2) g1)
             (last_slowest rest)
  | _ => typewriter grids
  end.

(** All multi-indices of an array of shape [sh], in row-major order. *)
Fixpoint indices (sh : list nat) : list (list nat) :=
  match sh with
  | [] => [[]]
  | d :: rest => flat_map (fun i => map (cons i) (indices rest)) (seq 0 d)
  end.

(** The coordinate at multi-index [J]: the [J]-th entries of the grids. *)
Definition pick (grids : list (list Q)) (J : list nat) : list Q :=
  map (fun c => nth (nth c J 0) (nth c grids []) 0%Q)
      (seq 0 (List.length grids)).

(** The calls of a [_move] that runs to its end. *)
Definition move_calls (self : PerpendicularAC) (position : list Q)
    (absolute : bool) : list event :=
  [Move Major (firstn (_n_major_axes self) position) (Some absolute);
   Move Minor (skipn (_n_major_axes self) position) (Some absolute)].

(** The calls of a [_scan] that runs to its end. *)
Definition scan_calls (self : PerpendicularAC) (coords : list (list Q))
    (dwell_time : option Q) : list event :=
  OnScanStart coords dwell_time
  :: flat_map (fun coord => move_calls self coord true
                            ++ [OnScanStep coord dwell_time])
              (izip_star coords)
  ++ [OnScanComplete coords dwell_time].

(** The calls of [calls], made in this order after [history], all
    return. *)
Fixpoint all_return (behaviour : list event -> event -> option exn)
    (history calls : list event) : bool :=
  match calls with
  | [] => true
  | e :: rest =>
    match behaviour history e with
    | None => all_return behaviour (history ++ [e]) rest
    | Some _ => false
    end
  end.

(** Sub-collections and hooks that never raise. *)
Definition obedient : list event -> event -> option exn := fun _ _ => None.

(** The composite of the design document's examples: two major axes and
    one minor axis. *)
Definition major2 : AxisCollection :=
  {| ac_position := [0; 0]%Q;
     ac_limits := [(0, 10 # 1); (0, 20 # 1)]%Q;
     ac_units := ["mm"%string; "mm"%string];
     ac_len := 2;
     ac_is_hardware_scannable := 0 |}.

Definition minor1 : AxisCollection :=
  {| ac_position := [0]%Q;
     ac_limits := [(0, 5 # 1)]%Q;
     ac_units := ["mm"%string];
     ac_len := 1;
     ac_is_hardware_scannable := 1 |}.

Definition major3 : AxisCollection :=
  {| ac_position := [0; 0; 0]%Q;
     ac_limits := [(0, 1); (0, 1); (0, 1)]%Q;
     ac_units := ["mm"%string; "mm"%string; "mm"%string];
     ac_len := 3;
     ac_is_hardware_scannable := 0 |}.

(** The calls of [calls], made in this order after [history] until one of
    them raises. *)
Fixpoint run_script (behaviour : list event -> event -> option exn)
    (calls : list event) (history : list event)
    : outcome unit * list event :=
  match calls with
  | [] => (Return tt, history)
  | e :: rest =>
    match behaviour history e with
    | Some x => (Raise x, history ++ [e])
    | None => run_script behaviour rest (history ++ [e])
    end
  end.

(** An axis collection whose per-axis attributes all have [ac_len]
    entries. *)
Definition consistent (c : AxisCollection) : Prop :=
  List.length (ac_position c) = ac_len c
  /\ List.length (ac_limits c) = ac_len c
  /\ List.length (ac_units c) = ac_len c.

(** A major collection that cannot move, and a minor one. *)
Definition major_stuck : list event -> event -> option exn :=
  fun _ e =>
    match e with
    | Move Major _ _ => Some (AxisError "major axes stuck")
    | _ => None
    end.

Definition minor_stuck : list event -> event -> option exn :=
  fun _ e =>
    match e with
    | Move Minor _ _ => Some (AxisError "minor axes stuck")
    | _ => None
    end.

Definition composite21 : PerpendicularAC := __init__ major2 minor1.

Definition composite31 : PerpendicularAC := __init__ major3 minor1.

(** [assume_units] on bare numbers, read in the unit that is passed. *)
Definition bare_magnitude (value : Q) (unit : string) : Q := value.

End PerpAC.

(** * Properties of [querypacket] *)

Section QueryPacket.

Import ThorLabs.

Variable Packet : Type.
Variable pack : Packet -> bytes.
Variable unpack : bytes -> outcome Packet.
Variable message_id : Packet -> Z.
Variable file : transport.
Variable clock : nat -> Q.

Local Abbreviation query := (querypacket pack unpack message_id file clock).
Local Abbreviation ends_with := (loop_ends_with pack file clock).

Lemma Qlt_bool_true (a b : Q) : (a < b)%Q -> Qlt_bool a b = true.
Proof.
  intros Hlt. unfold Qlt_bool.
  destruct (Qle_bool b a) eqn:Hle; [ | reflexivity ].
  apply Qle_bool_imp_le in Hle.
  exfalso. exact (Qlt_not_le _ _ Hlt Hle).
Qed.

Lemma truthy_bytes_nonempty (b : bytes) : b <> [] -> truthy_bytes b = true.
Proof.
  destruct b as [ | x b']; [ intros H; now elim H | reflexivity ].
Qed.

(** Once the loop has ended normally, the call is settled by [resolve]. *)
Lemma querypacket_resolves fuel p expect timeout s resp s1 :
  ends_with fuel p timeout s resp s1 ->
  query fuel p expect timeout s = Some (resolve unpack message_id resp expect, s1).
Proof.
  unfold loop_ends_with, querypacket.
  simpl. intros ->. reflexivity.
Qed.

(** C1, as the code has it: with [timeout=False] the elapsed time is still
    compared, against [False], that is against zero.  When the first read
    is empty and the clock has advanced at all since the call began, the
    loop breaks after that single attempt, and the call is settled as
    "no response". *)
Theorem querypacket_False_breaks_on_elapsed_time fuel p expect s :
  write_result file (List.length (written s)) (pack p) = Return tt ->
  read_result file (reads s) = Return [] ->
  (clock (ticks s) < clock (S (ticks s)))%Q ->
  query (S fuel) p expect (TBool false) s
  = Some (resolve unpack message_id [] expect,
          {| written := written s ++ [pack p];
             reads := S (reads s);
             ticks := S (S (ticks s)) |}).
Proof.
  intros Hw Hr Hclock.
  unfold querypacket. simpl.
  rewrite Hw, Hr. simpl.
  rewrite Qlt_bool_true; [ reflexivity | ].
  unfold as_number. simpl.
  apply Qlt_minus_iff in Hclock.
  setoid_replace (clock (S (ticks s)) - clock (ticks s))%Q
    with (clock (S (ticks s)) + - clock (ticks s))%Q by reflexivity.
  exact Hclock.
Qed.

(** C2: a non-empty response that unpacks to [pkt] is returned when no
    identifier is expected or when the expected one is the packet's; when
    the expected identifier differs, the call raises an [IOError] whose
    text gives the received and then the expected identifier. *)
Theorem querypacket_response_checked fuel p timeout s resp s1 pkt :
  ends_with fuel p timeout s resp s1 ->
  resp <> [] ->
  unpack resp = Return pkt ->
  query fuel p None timeout s = Some (Return (Some pkt), s1)
  /\ (forall e, message_id pkt = e ->
        query fuel p (Some e) timeout s = Some (Return (Some pkt), s1))
  /\ (forall e, message_id pkt <> e ->
        query fuel p (Some e) timeout s
        = Some (Raise (IOError ("APT returned message ID "
                                ++ format_int (message_id pkt)
                                ++ ", expected " ++ format_int e)%string),
                s1)).
Proof.
  intros Hloop Hresp Hpkt.
  pose proof (truthy_bytes_nonempty Hresp) as Htruthy.
  repeat split.
  - rewrite (querypacket_resolves None Hloop).
    unfold resolve. now rewrite Htruthy, Hpkt.
  - intros e He.
    rewrite (querypacket_resolves (Some e) Hloop).
    unfold resolve. rewrite Htruthy, Hpkt. simpl.
    apply Z.eqb_eq in He. now rewrite He.
  - intros e He.
    rewrite (querypacket_resolves (Some e) Hloop).
    unfold resolve. rewrite Htruthy, Hpkt. simpl.
    apply Z.eqb_neq in He. now rewrite He.
Qed.

(** C3: when the loop ends with nothing read, the call returns [None] if no
    identifier is expected, and otherwise raises an [IOError] whose text
    names the expected identifier. *)
Theorem querypacket_no_response fuel p timeout s s1 :
  ends_with fuel p timeout s [] s1 ->
  query fuel p None timeout s = Some (Return None, s1)
  /\ (forall e,
        query fuel p (Some e) timeout s
        = Some (Raise (IOError ("Expected packet " ++ format_int e
                                ++ ", got nothing instead.")%string),
                s1)).
Proof.
  intros Hloop. split.
  - now rewrite (querypacket_resolves None Hloop).
  - intros e. now rewrite (querypacket_resolves (Some e) Hloop).
Qed.

End QueryPacket.

Section QueryPacketRuns.

Import ThorLabs.

Lemma querypacket_False_breaks_on_elapsed_time_run :
  querypacket wire parse ident silent ticking 1 [Byte.x05] None (TBool false)
              io_start
  = Some (Return None,
          {| written := [[Byte.x05]]; reads := 1; ticks := 2 |}).
Proof.
  apply (@querypacket_False_breaks_on_elapsed_time
           bytes wire parse ident silent ticking 0 [Byte.x05] None io_start);
    reflexivity.
Defined.

Lemma querypacket_response_checked_run :
  querypacket wire parse ident (answering [Byte.x01]) ticking 1 [] (Some 2%Z)
              TNone io_start
  = Some (Raise (IOError "APT returned message ID 1, expected 2"),
          {| written := [[]]; reads := 1; ticks := 1 |}).
Proof.
  refine (proj2 (proj2 (@querypacket_response_checked
            bytes wire parse ident (answering [Byte.x01]) ticking
            1 [] TNone io_start [Byte.x01] _ [Byte.x01] _ _ _)) 2%Z _).
  - reflexivity.
  - discriminate.
  - reflexivity.
  - discriminate.
Defined.

Lemma querypacket_no_response_run :
  querypacket wire parse ident silent ticking 1 [] (Some 7%Z) TNone io_start
  = Some (Raise (IOError "Expected packet 7, got nothing instead."),
          {| written := [[]]; reads := 1; ticks := 1 |}).
Proof.
  refine (proj2 (@querypacket_no_response
            bytes wire parse ident silent ticking 1 [] TNone io_start _ _) 7%Z).
  reflexivity.
Defined.

End QueryPacketRuns.

(** * Properties of [PerpendicularAC] *)

Section Aggregation.

Import PerpAC.

(** C6: the position, limits and units of a composite are those of the
    major collection followed by those of the minor collection, and its
    length is the sum of the two lengths. *)
Theorem composite_is_major_then_minor (major minor : AxisCollection) :
  position (__init__ major minor) = ac_position major ++ ac_position minor
  /\ limits (__init__ major minor) = ac_limits major ++ ac_limits minor
  /\ units (__init__ major minor) = ac_units major ++ ac_units minor
  /\ __len__ (__init__ major minor) = (ac_len major + ac_len minor)%nat.
Proof.
  unfold position, limits, units, __len__, __init__; simpl.
  repeat split.
Qed.

(** C10: reading [finest_axes] gives [None] on every composite. *)
Theorem finest_axes_is_None (self : PerpendicularAC) :
  finest_axes self = None.
Proof.
  destruct self; reflexivity.
Qed.

End Aggregation.

Section Delegation.

Import PerpAC.

Variable assume_units : Q -> string -> Q.
Variable behaviour : list event -> event -> option exn.

Lemma call_returns (h : list event) (e : event) :
  behaviour h e = None -> call behaviour e h = (Return tt, h ++ [e]).
Proof.
  intros Hb. unfold call. now rewrite Hb.
Qed.

Lemma all_return_app (h a b : list event) :
  all_return behaviour h (a ++ b)
  = all_return behaviour h a && all_return behaviour (h ++ a) b.
Proof.
  revert h. induction a as [ | e a IH]; intros h; simpl.
  - now rewrite app_nil_r.
  - destruct (behaviour h e); [ reflexivity | ].
    rewrite IH, <- app_assoc. reflexivity.
Qed.

(** What [_move] does, whatever it is given. *)
Lemma move_unfolded (self : PerpendicularAC) (pos : list Q) (absolute : bool)
    (h : list event) :
  _move behaviour self pos absolute h
  = match behaviour h (Move Major (firstn (_n_major_axes self) pos)
                            (Some absolute)) with
    | Some x =>
      (Raise x,
       h ++ [Move Major (firstn (_n_major_axes self) pos) (Some absolute)])
    | None =>
      (match behaviour
               (h ++ [Move Major (firstn (_n_major_axes self) pos)
                           (Some absolute)])
               (Move Minor (skipn (_n_major_axes self) pos) (Some absolute))
       with
       | Some x => Raise x
       | None => Return tt
       end,
       h ++ move_calls self pos absolute)
    end.
Proof.
  unfold _move, bind, axes_attr, ret, call, move_calls. simpl.
  destruct (behaviour h _); [ reflexivity | ].
  now rewrite <- app_assoc.
Qed.

Lemma move_returns (self : PerpendicularAC) (pos : list Q) (absolute : bool)
    (h : list event) :
  all_return behaviour h (move_calls self pos absolute) = true ->
  _move behaviour self pos absolute h
  = (Return tt, h ++ move_calls self pos absolute).
Proof.
  rewrite move_unfolded. unfold move_calls. simpl.
  destruct (behaviour h _); [ discriminate | ].
  destruct (behaviour (h ++ _) _); [ discriminate | reflexivity ].
Qed.

(** C5: for a sequence as long as the composite has axes, and a major
    collection whose [move] returns, the calls of [_move] are the major
    collection's [move] on the first [_n_major_axes] entries and then the
    minor collection's [move] on the remaining [_n_minor_axes] entries,
    both with the [absolute] flag of the caller. *)
Theorem move_splits_major_then_minor (self : PerpendicularAC) (pos : list Q)
    (absolute : bool) (h : list event) :
  List.length pos = __len__ self ->
  behaviour h (Move Major (firstn (_n_major_axes self) pos) (Some absolute))
  = None ->
  snd (_move behaviour self pos absolute h)
  = h ++ [Move Major (firstn (_n_major_axes self) pos) (Some absolute);
          Move Minor (skipn (_n_major_axes self) pos) (Some absolute)]
  /\ List.length (firstn (_n_major_axes self) pos) = _n_major_axes self
  /\ List.length (skipn (_n_major_axes self) pos) = _n_minor_axes self
  /\ firstn (_n_major_axes self) pos ++ skipn (_n_major_axes self) pos = pos.
Proof.
  intros Hlen Hmajor. unfold __len__ in Hlen.
  rewrite move_unfolded, Hmajor. simpl.
  repeat split.
  - rewrite length_firstn. lia.
  - rewrite length_skipn. lia.
  - apply firstn_skipn.
Qed.

(** The loop of [_scan], when every call returns. *)
Lemma scan_loop_returns (self : PerpendicularAC) (dwell_time : option Q)
    (points : list (list Q)) (h : list event) :
  all_return behaviour h
    (flat_map (fun coord => move_calls self coord true
                            ++ [OnScanStep coord dwell_time]) points) = true ->
  for_each points (fun coord =>
    bind (_move behaviour self coord true) (fun _ =>
    call behaviour (OnScanStep coord dwell_time))) h
  = (Return tt,
     h ++ flat_map (fun coord => move_calls self coord true
                                 ++ [OnScanStep coord dwell_time]) points).
Proof.
  revert h. induction points as [ | coord points IH]; intros h Hret.
  - simpl. now rewrite app_nil_r.
  - cbn [flat_map for_each] in *.
    rewrite !all_return_app in Hret.
    apply andb_prop in Hret as [Hstep Hrest].
    apply andb_prop in Hstep as [Hmove Hstep].
    unfold bind at 1. unfold bind at 1.
    rewrite move_returns by exact Hmove.
    simpl in Hstep.
    destruct (behaviour (h ++ move_calls self coord true)
                        (OnScanStep coord dwell_time)) eqn:Hb;
      [ discriminate | ].
    rewrite call_returns by exact Hb.
    rewrite IH.
    + now rewrite <- !app_assoc.
    + rewrite <- !app_assoc. exact Hrest.
Qed.

(** C9: when the hooks and the sub-collections return, the calls of
    [_scan] are one [on_scan_start] with all the coordinates and the dwell
    time, then for every point in order a [_move] to it followed by its
    [on_scan_step], then one [on_scan_complete] with all the coordinates
    and the dwell time. *)
Theorem scan_notifies_in_order (self : PerpendicularAC)
    (coords : list (list Q)) (dwell_time : option Q) (h : list event) :
  all_return behaviour h (scan_calls self coords dwell_time) = true ->
  _scan behaviour self coords dwell_time h
  = (Return tt,
     h ++ [OnScanStart coords dwell_time]
       ++ flat_map (fun coord =>
                      [Move Major (firstn (_n_major_axes self) coord) (Some true);
                       Move Minor (skipn (_n_major_axes self) coord) (Some true);
                       OnScanStep coord dwell_time])
                   (izip_star coords)
       ++ [OnScanComplete coords dwell_time]).
Proof.
  unfold scan_calls. intros Hret.
  change (OnScanStart coords dwell_time :: ?l)
    with ([OnScanStart coords dwell_time] ++ l) in Hret.
  rewrite !all_return_app in Hret.
  apply andb_prop in Hret as [Hstart Hrest].
  apply andb_prop in Hrest as [Hloop Hend].
  simpl in Hstart.
  destruct (behaviour h (OnScanStart coords dwell_time)) eqn:Hb;
    [ discriminate | ].
  unfold _scan. unfold bind at 1.
  rewrite call_returns by exact Hb.
  unfold bind at 1.
  rewrite scan_loop_returns by exact Hloop.
  simpl in Hend.
  destruct (behaviour _ (OnScanComplete coords dwell_time)) eqn:Hc;
    [ discriminate | ].
  rewrite call_returns by exact Hc.
  now rewrite <- !app_assoc.
Qed.

(** C7, as the code has it: as soon as the plan has one coordinate,
    [_raster] stops at its first attribute access, [self._major_axis], a
    name that no instance has; no sub-collection is called. *)
Theorem raster_raises_AttributeError (self : PerpendicularAC)
    (start stop : list Q) (num : list nat) (dwell_time : option Q)
    (strict : bool) (h : list event) (coord : list Q) (rest : list (list Q)) :
  major_axes_grid assume_units self start stop num = Return (coord :: rest) ->
  _raster assume_units behaviour self start stop num dwell_time strict h
  = (Raise (AttributeError "_major_axis"), h).
Proof.
  intros Hgrid. unfold _raster. rewrite Hgrid. reflexivity.
Qed.

End Delegation.

(** * The plan of [_raster] *)

Section Grid.

Import PerpAC.
Local Open Scope nat_scope.

Lemma prod_app (a b : list nat) : prod (a ++ b) = prod a * prod b.
Proof.
  induction a as [ | d a IH]; simpl.
  - lia.
  - unfold prod in *. simpl. rewrite IH. lia.
Qed.

Lemma prod_cons (d : nat) (sh : list nat) : prod (d :: sh) = d * prod sh.
Proof. reflexivity. Qed.

Lemma unravel_snoc (sh : list nat) (n r c : nat) :
  c < n -> r < prod sh ->
  unravel (sh ++ [n]) (r * n + c) = unravel sh r ++ [c].
Proof.
  intros Hc. revert r. induction sh as [ | d sh IH]; intros r Hr.
  - change (prod []) with 1 in Hr. assert (r = 0) by lia. subst r.
    cbn [app unravel]. change (prod []) with 1.
    rewrite Nat.div_1_r. reflexivity.
  - rewrite prod_cons in Hr.
    assert (Hpos : 0 < prod sh) by nia.
    cbn [app unravel].
    rewrite prod_app. replace (prod [n]) with n by (unfold prod; simpl; lia).
    assert (E1 : (r * n + c) mod n = c).
    { rewrite Nat.add_comm, Nat.Div0.mod_add. apply Nat.mod_small. lia. }
    assert (E2 : (r * n + c) / n = r).
    { rewrite Nat.div_add_l by lia. rewrite (Nat.div_small c n) by lia. lia. }
    assert (Hdiv : (r * n + c) / (prod sh * n) = r / prod sh).
    { now rewrite (Nat.mul_comm (prod sh) n), <- Nat.Div0.div_div, E2. }
    assert (Hmod : (r * n + c) mod (prod sh * n) = (r mod prod sh) * n + c).
    { rewrite (Nat.mul_comm (prod sh) n), Nat.Div0.mod_mul_r, E1, E2. lia. }
    rewrite Hdiv, Hmod, IH; [ reflexivity | ].
    apply Nat.mod_upper_bound. lia.
Qed.

Lemma seq_from (a m : nat) : seq a m = map (fun j => a + j) (seq 0 m).
Proof.
  induction m as [ | m IH].
  - reflexivity.
  - rewrite !seq_S, map_app, IH. reflexivity.
Qed.

Lemma seq_mul (d m : nat) :
  seq 0 (d * m)
  = flat_map (fun i => map (fun j => i * m + j) (seq 0 m)) (seq 0 d).
Proof.
  induction d as [ | d IH].
  - reflexivity.
  - rewrite seq_S, flat_map_app. simpl. rewrite app_nil_r, <- IH.
    replace (m + d * m) with (d * m + m) by lia.
    rewrite seq_app. f_equal. apply seq_from.
Qed.

Lemma map_flat_map (A B C : Type) (f : B -> C) (g : A -> list B) (l : list A) :
  map f (flat_map g l) = flat_map (fun x => map f (g x)) l.
Proof.
  induction l as [ | x l IH]; simpl.
  - reflexivity.
  - now rewrite map_app, IH.
Qed.

Lemma flat_map_ext_in (A B : Type) (f g : A -> list B) (l : list A) :
  (forall x, In x l -> f x = g x) -> flat_map f l = flat_map g l.
Proof.
  induction l as [ | x l IH]; simpl; intros H.
  - reflexivity.
  - rewrite H by now left. rewrite IH; [ reflexivity | ].
    intros y Hy. apply H. now right.
Qed.

Lemma unravel_enumerates (sh : list nat) :
  map (unravel sh) (seq 0 (prod sh)) = indices sh.
Proof.
  induction sh as [ | d sh IH].
  - reflexivity.
  - rewrite prod_cons, seq_mul, map_flat_map. cbn [indices].
    apply flat_map_ext_in. intros i _.
    rewrite <- IH, !map_map.
    apply map_ext_in. intros j Hj. apply in_seq in Hj.
    cbn [unravel]. f_equal.
    + rewrite Nat.div_add_l by lia. rewrite Nat.div_small by lia. lia.
    + f_equal. rewrite Nat.add_comm, Nat.Div0.mod_add.
      apply Nat.mod_small. lia.
Qed.

(** The coordinate at multi-index [J]. *)
Lemma pick_cons (g : list Q) (grids : list (list Q)) (j : nat) (J : list nat) :
  pick (g :: grids) (j :: J) = nth j g 0%Q :: pick grids J.
Proof.
  unfold pick. cbn [List.length seq map nth]. f_equal.
  rewrite <- seq_shift, map_map. reflexivity.
Qed.

Lemma nth_all (g : list Q) : map (fun i => nth i g 0%Q) (seq 0 (List.length g)) = g.
Proof.
  induction g as [ | a g IH]; simpl.
  - reflexivity.
  - f_equal. rewrite <- seq_shift, map_map. exact IH.
Qed.

Lemma flat_map_single (A B : Type) (f : A -> B) (l : list A) :
  flat_map (fun x => [f x]) l = map f l.
Proof.
  induction l as [ | x l IH]; simpl; [ reflexivity | now rewrite IH ].
Qed.

Lemma flat_map_flat_map (A B C : Type) (f : B -> list C) (g : A -> list B)
    (l : list A) :
  flat_map f (flat_map g l) = flat_map (fun x => flat_map f (g x)) l.
Proof.
  induction l as [ | x l IH]; simpl.
  - reflexivity.
  - now rewrite flat_map_app, IH.
Qed.

Lemma flat_map_map (A B C : Type) (f : B -> list C) (g : A -> B) (l : list A) :
  flat_map f (map g l) = flat_map (fun x => f (g x)) l.
Proof.
  induction l as [ | x l IH]; simpl; [ reflexivity | now rewrite IH ].
Qed.

Lemma indices_snoc (a : list nat) (l : nat) :
  indices (a ++ [l])
  = flat_map (fun t => map (fun j => t ++ [j]) (seq 0 l)) (indices a).
Proof.
  induction a as [ | d a IH].
  - simpl. rewrite app_nil_r. apply flat_map_single.
  - cbn [app indices]. rewrite IH, flat_map_flat_map.
    apply flat_map_ext_in. intros i _.
    rewrite map_flat_map, flat_map_map.
    apply flat_map_ext_in. intros t _.
    now rewrite map_map.
Qed.

Lemma map_by_index (B : Type) (f : Q -> B) (g : list Q) :
  map f g = map (fun j => f (nth j g 0%Q)) (seq 0 (List.length g)).
Proof.
  rewrite <- (nth_all g) at 1. now rewrite map_map.
Qed.

Lemma flat_map_by_index (B : Type) (f : Q -> list B) (g : list Q) :
  flat_map f g = flat_map (fun j => f (nth j g 0%Q)) (seq 0 (List.length g)).
Proof.
  rewrite <- (nth_all g) at 1. now rewrite flat_map_map.
Qed.

Lemma last_slowest_by_index (grids : list (list Q)) :
  map (fun idx => pick grids (rev idx))
      (indices (rev (map (@List.length Q) grids)))
  = last_slowest grids.
Proof.
  induction grids as [ | g grids IH].
  - reflexivity.
  - cbn [map rev last_slowest].
    rewrite indices_snoc, map_flat_map, <- IH, flat_map_map.
    apply flat_map_ext_in. intros t _.
    rewrite map_map, (map_by_index _ g).
    apply map_ext. intros j.
    rewrite rev_app_distr. cbn [rev app]. now rewrite pick_cons.
Qed.

Lemma meshgrid_order_by_index (grids : list (list Q)) :
  map (fun idx => pick grids (swap01 (rev idx)))
      (indices (rev (swap01 (map (@List.length Q) grids))))
  = meshgrid_order grids.
Proof.
  destruct grids as [ | g1 [ | g2 rest]].
  - reflexivity.
  - cbn [map swap01 rev app meshgrid_order typewriter].
    change [List.length g1] with ([] ++ [List.length g1]).
    rewrite indices_snoc. simpl indices. cbn [flat_map]. rewrite app_nil_r.
    rewrite map_map, (flat_map_by_index _ g1), flat_map_single.
    apply map_ext. intros j. reflexivity.
  - cbn [map swap01 rev meshgrid_order].
    rewrite !indices_snoc, <- last_slowest_by_index.
    rewrite flat_map_flat_map, map_flat_map, flat_map_map.
    apply flat_map_ext_in. intros t _.
    rewrite flat_map_map, map_flat_map, (flat_map_by_index _ g1).
    apply flat_map_ext_in. intros j1 _.
    rewrite map_map, (map_by_index _ g2).
    apply map_ext. intros j2.
    rewrite !rev_app_distr. cbn [rev app swap01].
    now rewrite !pick_cons.
Qed.

Lemma prod_rev (l : list nat) : prod (rev l) = prod l.
Proof.
  induction l as [ | d l IH]; [ reflexivity | ].
  cbn [rev]. rewrite prod_app, IH, !prod_cons.
  change (prod []) with 1. nia.
Qed.

Lemma prod_swap01 (l : list nat) : prod (swap01 l) = prod l.
Proof.
  destruct l as [ | a [ | b l]]; try reflexivity.
  cbn [swap01]. rewrite !prod_cons. nia.
Qed.

Lemma length_linspace (a b : Q) (m : nat) : List.length (linspace a b m) = m.
Proof.
  destruct m as [ | [ | m]]; try reflexivity.
  unfold linspace. now rewrite length_map, length_seq.
Qed.

(** The points of [linspace] are evenly spaced from [a] to [b]. *)
Lemma linspace_evenly_spaced (a b : Q) (num i : nat) :
  2 <= num -> i < num ->
  (nth i (linspace a b num) 0
   == a + inject_Z (Z.of_nat i) * ((b - a) / inject_Z (Z.of_nat (num - 1))))%Q.
Proof.
  intros Hnum Hi.
  destruct num as [ | [ | m]]; [ lia | lia | ].
  unfold linspace.
  set (f := fun i : nat =>
              Qred (a + inject_Z (Z.of_nat i)
                        * ((b - a) / inject_Z (Z.of_nat (S (S m) - 1))))%Q).
  rewrite (nth_indep _ 0%Q (f 0)) by now rewrite length_map, length_seq.
  rewrite (map_nth f), seq_nth by exact Hi.
  unfold f. apply Qred_correct.
Qed.

Lemma linspace_ends (a b : Q) (num : nat) :
  2 <= num ->
  (nth 0 (linspace a b num) 0 == a)%Q
  /\ (nth (num - 1) (linspace a b num) 0 == b)%Q.
Proof.
  intros Hnum.
  assert (Hpos : ~ (inject_Z (Z.of_nat (num - 1)) == 0)%Q).
  { unfold Qeq. simpl. lia. }
  split.
  - rewrite linspace_evenly_spaced by lia. simpl. ring.
  - rewrite linspace_evenly_spaced by lia. field. exact Hpos.
Qed.

Lemma mesh_item (grids : list (list Q)) (c : nat) (J : list nat) :
  c < List.length grids ->
  item (nth c (meshgrid grids) empty_array) J
  = nth (nth c (swap01 J) 0) (nth c grids []) 0%Q.
Proof.
  intros Hc. unfold meshgrid.
  rewrite (nth_indep _ empty_array
             {| shape := swap01 (map (@List.length Q) grids);
                item := fun idx => nth (nth 0 (swap01 idx) 0) (nth 0 grids []) 0%Q |})
    by now rewrite length_map, length_seq.
  rewrite (map_nth (fun i =>
             {| shape := swap01 (map (@List.length Q) grids);
                item := fun idx => nth (nth i (swap01 idx) 0) (nth i grids []) 0%Q |})).
  rewrite seq_nth by exact Hc. reflexivity.
Qed.

Lemma stacked_shape (grids : list (list Q)) :
  grids <> [] ->
  shape (np_array (meshgrid grids))
  = List.length grids :: swap01 (map (@List.length Q) grids).
Proof.
  destruct grids as [ | g grids]; [ intros H; now elim H | intros _ ].
  unfold meshgrid. cbn [List.length seq map np_array shape].
  now rewrite length_map, length_seq.
Qed.

Lemma stacked_item (grids : list (list Q)) (c : nat) (J : list nat) :
  c < List.length grids ->
  item (np_array (meshgrid grids)) (c :: J)
  = nth (nth c (swap01 J) 0) (nth c grids []) 0%Q.
Proof.
  intros Hc. rewrite <- mesh_item by exact Hc.
  destruct grids as [ | g grids]; [ simpl in Hc; lia | ].
  reflexivity.
Qed.

(** The rows of the reshaped grid, by their position. *)
Lemma grid_rows (grids : list (list Q)) (P : nat) :
  P = prod (map (@List.length Q) grids) ->
  match reshape (transpose (np_array (meshgrid grids)))
                [P; List.length grids] with
  | Return grid' => Return (rows grid')
  | Raise e => Raise e
  end
  = Return (map (fun r =>
                   pick grids
                        (swap01 (rev (unravel
                           (rev (swap01 (map (@List.length Q) grids))) r))))
                (seq 0 P)).
Proof.
  intros HP.
  destruct (Nat.eq_dec (List.length grids) 0) as [Hnil | Hlen].
  - apply length_zero_iff_nil in Hnil. subst grids P. reflexivity.
  - assert (Hne : grids <> []) by (intros ->; now apply Hlen).
    set (sh := swap01 (map (@List.length Q) grids)).
    set (n := List.length grids).
    assert (Hshape : shape (transpose (np_array (meshgrid grids)))
                     = rev sh ++ [n]).
    { unfold transpose. cbn [shape]. now rewrite stacked_shape. }
    assert (HPsh : prod (rev sh) = P).
    { unfold sh. now rewrite prod_rev, prod_swap01. }
    unfold reshape. rewrite Hshape, prod_app, HPsh.
    replace (prod [P; n]) with (P * prod [n]) by reflexivity.
    rewrite Nat.eqb_refl.
    unfold rows. cbn [shape]. f_equal.
    apply map_ext_in. intros r Hr. apply in_seq in Hr.
    unfold pick. fold n.
    apply map_ext_in. intros c Hc. apply in_seq in Hc.
    cbn [item].
    replace (ravel [P; n] [r; c]) with (r * n + c)
      by (cbn [ravel]; change (prod [n]) with (n * 1);
          change (prod []) with 1; lia).
    rewrite unravel_snoc by lia.
    unfold transpose. cbn [item].
    rewrite rev_app_distr. cbn [rev app].
    apply stacked_item. lia.
Qed.
Lemma typewriter_cons (g : list Q) (rest : list (list Q)) :
  typewriter (g :: rest)
  = flat_map (fun a => map (cons a) (typewriter rest)) g.
Proof. reflexivity. Qed.

Lemma last_slowest_cons (g : list Q) (rest : list (list Q)) :
  last_slowest (g :: rest)
  = flat_map (fun t => map (fun a => a :: t) g) (last_slowest rest).
Proof. reflexivity. Qed.

Lemma meshgrid_order_cons (g1 g2 : list Q) (rest : list (list Q)) :
  meshgrid_order (g1 :: g2 :: rest)
  = flat_map (fun t => flat_map (fun a => map (fun b => a :: b :: t) g2) g1)
             (last_slowest rest).
Proof. reflexivity. Qed.

Lemma typewriter_upto_two (grids : list (list Q)) :
  List.length grids <= 2 -> meshgrid_order grids = typewriter grids.
Proof.
  destruct grids as [ | g1 [ | g2 [ | g3 rest]]]; intros Hlen;
    try reflexivity.
  - cbn [meshgrid_order last_slowest typewriter flat_map].
    rewrite app_nil_r. apply flat_map_ext_in. intros a _.
    cbn [map]. now rewrite flat_map_single, map_map.
  - simpl in Hlen. lia.
Qed.

Lemma Permutation_of_eq (A : Type) (l l' : list A) :
  l = l' -> Permutation l l'.
Proof. intros ->. reflexivity. Qed.

Lemma flat_map_cons_split (A B : Type) (h : A -> B) (k : A -> list B)
    (l : list A) :
  Permutation (flat_map (fun x => h x :: k x) l) (map h l ++ flat_map k l).
Proof.
  induction l as [ | x l IH]; simpl.
  - constructor.
  - constructor. rewrite IH. apply Permutation_app_swap_app.
Qed.

Lemma flat_map_swap (A B C : Type) (f : A -> B -> C) (la : list A)
    (lb : list B) :
  Permutation (flat_map (fun a => map (f a) lb) la)
              (flat_map (fun b => map (fun a => f a b) la) lb).
Proof.
  induction la as [ | a la IH]; simpl.
  - induction lb as [ | b lb IHb]; [ constructor | exact IHb ].
  - rewrite IH. symmetry. apply flat_map_cons_split.
Qed.

Lemma last_slowest_is_product (grids : list (list Q)) :
  Permutation (last_slowest grids) (typewriter grids).
Proof.
  induction grids as [ | g grids IH].
  - reflexivity.
  - rewrite typewriter_cons, last_slowest_cons.
    rewrite (Permutation_flat_map _ IH). symmetry.
    apply (flat_map_swap (fun a t => a :: t)).
Qed.

Lemma meshgrid_order_is_product (grids : list (list Q)) :
  Permutation (meshgrid_order grids) (typewriter grids).
Proof.
  destruct grids as [ | g1 [ | g2 rest]]; try reflexivity.
  rewrite meshgrid_order_cons, !typewriter_cons.
  rewrite (Permutation_flat_map _ (last_slowest_is_product rest)).
  set (pairs := flat_map (fun a => map (fun b => (a, b)) g2) g1).
  transitivity
    (flat_map (fun t => map (fun p : Q * Q => fst p :: snd p :: t) pairs)
              (typewriter rest)).
  { apply Permutation_of_eq. apply flat_map_ext_in. intros t _.
    unfold pairs. rewrite map_flat_map.
    apply flat_map_ext_in. intros a _. now rewrite map_map. }
  rewrite <- (flat_map_swap (fun (p : Q * Q) t => fst p :: snd p :: t)).
  apply Permutation_of_eq. unfold pairs.
  rewrite flat_map_flat_map.
  apply flat_map_ext_in. intros a _.
  rewrite flat_map_map, map_flat_map.
  apply flat_map_ext_in. intros b _.
  now rewrite map_map.
Qed.

Section Plan.

Variable assume_units : Q -> string -> Q.

Lemma izip4_grid_lengths (n : nat) (a b : list Q) (c : list nat)
    (d : list string) :
  n <= List.length a -> n <= List.length b -> n <= List.length c ->
  n <= List.length d ->
  map (@List.length Q)
      (map (fun '(m_start, m_stop, m_num, unit) =>
              linspace (assume_units m_start unit)
                       (assume_units m_stop unit) m_num)
           (izip4 (firstn n a) (firstn n b) (firstn n c) d))
  = firstn n c.
Proof.
  revert a b c d. induction n as [ | n IH]; intros a b c d Ha Hb Hc Hd.
  - reflexivity.
  - destruct a as [ | x a]; [ simpl in Ha; lia | ].
    destruct b as [ | y b]; [ simpl in Hb; lia | ].
    destruct c as [ | z c]; [ simpl in Hc; lia | ].
    destruct d as [ | w d]; [ simpl in Hd; lia | ].
    simpl in Ha, Hb, Hc, Hd.
    cbn [firstn izip4 map]. rewrite length_linspace, IH by lia.
    reflexivity.
Qed.

(** C8, as the code has it: for arguments that cover the major axes, the
    plan is the Cartesian product of the per-axis grids, the i-th grid
    having the i-th requested number of points; it lists every combination
    once, the first major axis varying slowest when there are at most two
    major axes.  With more, the later axes are the slower ones: the last
    varies slowest, and the first two keep their typewriter order
    innermost. *)
Theorem raster_plan_is_meshgrid_order (self : PerpendicularAC)
    (start stop : list Q) (num : list nat) :
  _n_major_axes self <= List.length start ->
  _n_major_axes self <= List.length stop ->
  _n_major_axes self <= List.length num ->
  _n_major_axes self <= List.length (ac_units (_major_axes self)) ->
  major_axes_grid assume_units self start stop num
  = Return (meshgrid_order (major_axis_steps assume_units self start stop num))
  /\ map (@List.length Q) (major_axis_steps assume_units self start stop num)
     = firstn (_n_major_axes self) num
  /\ Permutation
       (meshgrid_order (major_axis_steps assume_units self start stop num))
       (typewriter (major_axis_steps assume_units self start stop num))
  /\ (_n_major_axes self <= 2 ->
      major_axes_grid assume_units self start stop num
      = Return (typewriter (major_axis_steps assume_units self start stop num))).
Proof.
  intros Hstart Hstop Hnum Hunits.
  assert (Hlens : map (@List.length Q)
                      (major_axis_steps assume_units self start stop num)
                  = firstn (_n_major_axes self) num).
  { unfold major_axis_steps. now apply izip4_grid_lengths. }
  assert (Hn : List.length (major_axis_steps assume_units self start stop num)
               = _n_major_axes self).
  { rewrite <- (length_map (@List.length Q)), Hlens, length_firstn. lia. }
  assert (Hgrid : major_axes_grid assume_units self start stop num
                  = Return (meshgrid_order
                              (major_axis_steps assume_units self start stop num))).
  { unfold major_axes_grid. rewrite <- Hn at 2.
    rewrite grid_rows by now rewrite Hlens.
    rewrite <- meshgrid_order_by_index, <- unravel_enumerates, map_map.
    rewrite prod_rev, prod_swap01, Hlens. reflexivity. }
  repeat split.
  - exact Hgrid.
  - exact Hlens.
  - apply meshgrid_order_is_product.
  - intros Htwo. rewrite Hgrid, typewriter_upto_two; [ reflexivity | lia ].
Qed.

End Plan.
End Grid.

(** * The examples of the design document, run *)

Section Runs.

Import PerpAC.
Local Open Scope nat_scope.

Lemma move_splits_major_then_minor_run :
  snd (_move obedient composite21 [1; 2; 3]%Q true [])
  = [Move Major [1; 2]%Q (Some true); Move Minor [3%Q] (Some true)].
Proof.
  apply (proj1 (@move_splits_major_then_minor obedient composite21
                  [1; 2; 3]%Q true [] eq_refl eq_refl)).
Defined.

Lemma scan_notifies_in_order_run :
  _scan obedient composite21 [[1; 2]; [3; 4]; [5; 6]]%Q None []
  = (Return tt,
     [OnScanStart [[1; 2]; [3; 4]; [5; 6]]%Q None;
      Move Major [1; 3]%Q (Some true); Move Minor [5%Q] (Some true);
      OnScanStep [1; 3; 5]%Q None;
      Move Major [2; 4]%Q (Some true); Move Minor [6%Q] (Some true);
      OnScanStep [2; 4; 6]%Q None;
      OnScanComplete [[1; 2]; [3; 4]; [5; 6]]%Q None]).
Proof.
  apply (@scan_notifies_in_order obedient composite21
           [[1; 2]; [3; 4]; [5; 6]]%Q None []).
  reflexivity.
Defined.

Lemma raster_raises_AttributeError_run :
  _raster bare_magnitude obedient composite21 [0; 0; 0]%Q [1; 2; 1]%Q
          [2; 3; 3] None true []
  = (Raise (AttributeError "_major_axis"), []).
Proof.
  eapply (@raster_raises_AttributeError bare_magnitude obedient composite21
            [0; 0; 0]%Q [1; 2; 1]%Q [2; 3; 3] None true []).
  reflexivity.
Defined.

(** C8 fails on the code: with three major axes the plan is not in
    first-axis-slowest order. *)
Lemma raster_plan_three_axes_not_typewriter :
  major_axes_grid bare_magnitude composite31 [0; 0; 0; 0]%Q [1; 0; 1; 1]%Q
                  [2; 1; 2; 3]
  <> Return (typewriter
               (major_axis_steps bare_magnitude composite31 [0; 0; 0; 0]%Q
                                 [1; 0; 1; 1]%Q [2; 1; 2; 3])).
Proof.
  vm_compute. discriminate.
Qed.

Lemma raster_plan_is_meshgrid_order_run :
  major_axes_grid bare_magnitude composite21 [0; 0; 0]%Q [1; 2; 1]%Q [2; 3; 3]
  = Return [[0; 0]; [0; 1]; [0; 2]; [1; 0]; [1; 1]; [1; 2]]%Q.
Proof.
  refine (proj1 (@raster_plan_is_meshgrid_order bare_magnitude composite21
                   [0; 0; 0]%Q [1; 2; 1]%Q [2; 3; 3] _ _ _ _));
    simpl; lia.
Defined.

End Runs.

(** * More on the retry loop of [querypacket] *)

Section RetryLoop.

Import ThorLabs.

Variable Packet : Type.
Variable pack : Packet -> bytes.
Variable unpack : bytes -> outcome Packet.
Variable message_id : Packet -> Z.
Variable file : transport.
Variable clock : nat -> Q.

Local Abbreviation query := (querypacket pack unpack message_id file clock).
Local Abbreviation loop := (retry_loop pack file clock).

Lemma Qlt_bool_lt (a b : Q) : Qlt_bool a b = true -> (a < b)%Q.
Proof.
  unfold Qlt_bool. intros H. apply negb_true_iff in H.
  apply Qnot_le_lt. intros Hle.
  apply Qle_bool_iff in Hle. congruence.
Qed.

Lemma is_none_normalize (t : timeout_arg) :
  is_none (normalize_timeout t) = is_none t.
Proof.
  unfold normalize_timeout.
  destruct t as [ | b | q | m u]; cbn [truthy_timeout].
  - reflexivity.
  - now destruct b.
  - now destruct (Qnonzero q).
  - now destruct (Qnonzero m).
Qed.

(** One turn of the loop, case by case. *)
Lemma loop_step (fuel : nat) (p : Packet) (timeout : timeout_arg) (t0 : Q)
    (s : io) :
  loop (S fuel) p timeout t0 s
  = match write_result file (List.length (written s)) (pack p) with
    | Raise e =>
      Some (Raise e, {| written := written s ++ [pack p];
                        reads := reads s; ticks := ticks s |})
    | Return _ =>
      match read_result file (reads s) with
      | Raise e =>
        Some (Raise e, {| written := written s ++ [pack p];
                          reads := S (reads s); ticks := ticks s |})
      | Return resp =>
        if truthy_bytes resp || is_none timeout then
          Some (Return resp, {| written := written s ++ [pack p];
                                reads := S (reads s); ticks := ticks s |})
        else if Qlt_bool (as_number timeout) (clock (ticks s) - t0) then
          Some (Return resp, {| written := written s ++ [pack p];
                                reads := S (reads s); ticks := S (ticks s) |})
        else
          loop fuel p timeout t0
               {| written := written s ++ [pack p];
                  reads := S (reads s); ticks := S (ticks s) |}
      end
    end.
Proof.
  cbn [retry_loop]. unfold write_raw, read_raw, time_time. cbn [written reads ticks].
  destruct (write_result file _ _); [ | reflexivity ].
  destruct (read_result file _); reflexivity.
Qed.

(** X1: with [timeout=None], or when the first read brings something, the
    call makes a single attempt: one write, one read, and no clock reading
    beyond the one at entry. *)
Theorem querypacket_single_attempt (fuel : nat) (p : Packet)
    (expect : option Z) (timeout : timeout_arg) (s : io) (resp : bytes) :
  write_result file (List.length (written s)) (pack p) = Return tt ->
  read_result file (reads s) = Return resp ->
  timeout = TNone \/ resp <> [] ->
  query (S fuel) p expect timeout s
  = Some (resolve unpack message_id resp expect,
          {| written := written s ++ [pack p];
             reads := S (reads s);
             ticks := S (ticks s) |}).
Proof.
  intros Hw Hr Hcase.
  unfold querypacket, time_time.
  rewrite loop_step. cbn [written reads ticks]. rewrite Hw, Hr.
  assert (Hbreak : truthy_bytes resp || is_none (normalize_timeout timeout)
                   = true).
  { destruct Hcase as [-> | Hresp].
    - apply orb_true_r.
    - now rewrite truthy_bytes_nonempty. }
  now rewrite Hbreak.
Qed.

(** X2: the request is written again at every attempt.  When the loop ends
    after [k] attempts, the transport has been written the packed request
    [k] times and read [k] times, and the clock has been read [k] or
    [k - 1] times. *)
Theorem retry_loop_resends_every_attempt (fuel : nat) (p : Packet)
    (timeout : timeout_arg) (t0 : Q) (s s1 : io) (resp : bytes) :
  loop fuel p timeout t0 s = Some (Return resp, s1) ->
  exists k,
    (1 <= k <= fuel)%nat
    /\ written s1 = written s ++ repeat (pack p) k
    /\ reads s1 = (reads s + k)%nat
    /\ (ticks s + k - 1 <= ticks s1 <= ticks s + k)%nat.
Proof.
  revert s. induction fuel as [ | fuel IH]; intros s Hloop.
  - discriminate.
  - rewrite loop_step in Hloop.
    destruct (write_result file _ _); [ | discriminate ].
    destruct (read_result file _) as [r | ]; [ | discriminate ].
    destruct (truthy_bytes r || is_none timeout).
    + injection Hloop as _ <-. exists 1%nat. cbn [written reads ticks repeat].
      repeat split; lia.
    + destruct (Qlt_bool _ _).
      * injection Hloop as _ <-. exists 1%nat. cbn [written reads ticks repeat].
        repeat split; lia.
      * apply IH in Hloop as (k & Hk & Hw & Hr & Ht).
        cbn [written reads ticks] in Hw, Hr, Ht.
        exists (S k). cbn [repeat].
        rewrite Hw, Hr, <- app_assoc. repeat split; lia.
Qed.

(** X3: under a timeout other than [None], the loop never gives up early:
    when it ends with nothing read, its last clock reading is more than
    the timeout after the reading at entry. *)
Theorem querypacket_not_before_timeout (fuel : nat) (p : Packet)
    (timeout : timeout_arg) (s s1 : io) :
  loop_ends_with pack file clock fuel p timeout s [] s1 ->
  timeout <> TNone ->
  exists t,
    ticks s1 = S t
    /\ (as_number (normalize_timeout timeout) < clock t - clock (ticks s))%Q.
Proof.
  unfold loop_ends_with, time_time. cbn [fst snd].
  intros Hloop Hnone.
  assert (His : is_none (normalize_timeout timeout) = false).
  { rewrite is_none_normalize. now destruct timeout. }
  revert Hloop.
  generalize {| written := written s; reads := reads s; ticks := S (ticks s) |}.
  generalize (normalize_timeout timeout) His. clear Hnone His.
  intros t His.
  induction fuel as [ | fuel IH]; intros s' Hloop.
  - discriminate.
  - rewrite loop_step in Hloop.
    destruct (write_result file _ _); [ | discriminate ].
    destruct (read_result file _) as [r | ]; [ | discriminate ].
    rewrite His, orb_false_r in Hloop.
    destruct (truthy_bytes r) eqn:Hr.
    + injection Hloop as -> _. discriminate.
    + destruct (Qlt_bool _ _) eqn:Hlt.
      * injection Hloop as _ <-. exists (ticks s').
        split; [ reflexivity | now apply Qlt_bool_lt ].
      * now apply IH in Hloop.
Qed.


(** X5: a call that expects an identifier never returns [None], and the
    packet it returns carries that identifier. *)
Theorem querypacket_returns_only_expected (fuel : nat) (p : Packet)
    (e : Z) (timeout : timeout_arg) (s s1 : io) (r : option Packet) :
  query fuel p (Some e) timeout s = Some (Return r, s1) ->
  exists pkt, r = Some pkt /\ message_id pkt = e.
Proof.
  unfold querypacket, time_time.
  destruct (loop fuel p _ _ _) as [[[resp | x] s'] | ]; try discriminate.
  unfold resolve.
  destruct (truthy_bytes resp); cbn [negb]; [ | discriminate ].
  destruct (unpack resp) as [pkt | ]; [ | discriminate ].
  destruct (message_id pkt =? e)%Z eqn:Hid; cbn [negb]; [ | discriminate ].
  intros H. injection H as <- _.
  exists pkt. split; [ reflexivity | now apply Z.eqb_eq ].
Qed.

(** The loop looks at a timeout only through [is None] and through the
    number it stands for. *)
Lemma loop_timeout_ext (fuel : nat) (p : Packet) (t1 t2 : timeout_arg)
    (t0 : Q) (s : io) :
  is_none t1 = is_none t2 ->
  (as_number t1 == as_number t2)%Q ->
  loop fuel p t1 t0 s = loop fuel p t2 t0 s.
Proof.
  intros Hnone Hnum. revert s.
  induction fuel as [ | fuel IH]; intros s; [ reflexivity | ].
  rewrite !loop_step, Hnone.
  assert (Hlt : Qlt_bool (as_number t1) (clock (ticks s) - t0)
                = Qlt_bool (as_number t2) (clock (ticks s) - t0)).
  { unfold Qlt_bool. f_equal. apply Qleb_comp; [ reflexivity | exact Hnum ]. }
  rewrite Hlt, IH. reflexivity.
Qed.

(** X6: [timeout=False] is the timeout of zero seconds, and [timeout=True]
    that of one second: the calls give the same result on every transport
    and clock. *)
Theorem querypacket_bool_timeout_is_number (fuel : nat) (p : Packet)
    (expect : option Z) (s : io) :
  query fuel p expect (TBool false) s = query fuel p expect (TNumber 0) s
  /\ query fuel p expect (TBool true) s = query fuel p expect (TNumber 1) s.
Proof.
  split; unfold querypacket, time_time.
  - rewrite (@loop_timeout_ext fuel p (normalize_timeout (TBool false))
               (normalize_timeout (TNumber 0))); reflexivity.
  - reflexivity.
Qed.

End RetryLoop.

(** * More on the composite *)

Section Reading.

Import PerpAC.
Local Open Scope nat_scope.

(** X7: nesting is associative for readers: joining [a] with [b] and the
    result with [c] shows the same position, limits, units, length and
    scannable count as joining [a] with the composite of [b] and [c]. *)
Theorem nested_composites_associate (a b c : AxisCollection) :
  as_collection (__init__ (as_collection (__init__ a b)) c)
  = as_collection (__init__ a (as_collection (__init__ b c))).
Proof.
  unfold as_collection, __init__, position, limits, units, __len__,
    is_hardware_scannable.
  cbn [_major_axes _minor_axes _n_major_axes _n_minor_axes
       ac_position ac_limits ac_units ac_len ac_is_hardware_scannable].
  rewrite <- !app_assoc, <- Nat.add_assoc, <- Z.add_assoc. reflexivity.
Qed.

(** X8: a composite of two collections whose per-axis attributes have one
    entry per axis has one entry per axis itself: its position, limits
    and units are as long as its [__len__]. *)
Theorem composite_keeps_consistency (major minor : AxisCollection) :
  consistent major -> consistent minor ->
  consistent (as_collection (__init__ major minor)).
Proof.
  intros (Hp & Hl & Hu) (Hp' & Hl' & Hu').
  unfold consistent, as_collection, __init__, position, limits, units, __len__.
  cbn [_major_axes _minor_axes _n_major_axes _n_minor_axes
       ac_position ac_limits ac_units ac_len].
  rewrite !length_app. repeat split; lia.
Qed.

(** X9: for sub-collections whose flag is a [bool], the composite's
    [is_hardware_scannable] counts the scannable ones: it is truthy as
    soon as one of the two is, and it is [2], not [True], when both
    are. *)
Theorem is_hardware_scannable_counts (self : PerpendicularAC) (a b : bool) :
  ac_is_hardware_scannable (_major_axes self) = Z.b2z a ->
  ac_is_hardware_scannable (_minor_axes self) = Z.b2z b ->
  (is_hardware_scannable self <> 0%Z <-> a || b = true)
  /\ (is_hardware_scannable self = 2%Z <-> a && b = true).
Proof.
  unfold is_hardware_scannable. intros -> ->.
  destruct a, b; cbn; split; split; intros H;
    try reflexivity; try discriminate; try lia; try (now elim H).
Qed.

End Reading.

Section Scripts.

Import PerpAC.
Local Open Scope nat_scope.

Variable assume_units : Q -> string -> Q.
Variable behaviour : list event -> event -> option exn.

Local Abbreviation run := (run_script behaviour).

Lemma run_script_app (a b : list event) (h : list event) :
  run (a ++ b) h
  = match run a h with
    | (Return _, h') => run b h'
    | (Raise x, h') => (Raise x, h')
    end.
Proof.
  revert h. induction a as [ | e a IH]; intros h; cbn [app run_script].
  - reflexivity.
  - destruct (behaviour h e); [ reflexivity | apply IH ].
Qed.

Lemma call_is_script (e : event) (h : list event) :
  call behaviour e h = run [e] h.
Proof.
  unfold call. cbn [run_script]. now destruct (behaviour h e).
Qed.

Lemma move_is_script (self : PerpendicularAC) (pos : list Q)
    (absolute : bool) (h : list event) :
  _move behaviour self pos absolute h = run (move_calls self pos absolute) h.
Proof.
  rewrite move_unfolded. unfold move_calls. cbn [run_script].
  destruct (behaviour h _); [ reflexivity | ].
  destruct (behaviour (h ++ _) _); now rewrite <- app_assoc.
Qed.

Lemma scan_loop_is_script (self : PerpendicularAC) (dwell_time : option Q)
    (points : list (list Q)) (h : list event) :
  for_each points (fun coord =>
    bind (_move behaviour self coord true) (fun _ =>
    call behaviour (OnScanStep coord dwell_time))) h
  = run (flat_map (fun coord => move_calls self coord true
                                ++ [OnScanStep coord dwell_time]) points) h.
Proof.
  revert h. induction points as [ | coord points IH]; intros h.
  - reflexivity.
  - cbn [for_each flat_map]. rewrite !run_script_app.
    unfold bind at 1. unfold bind at 1.
    rewrite move_is_script.
    destruct (run (move_calls self coord true) h) as [[u | x] h1];
      [ | reflexivity ].
    rewrite call_is_script.
    destruct (run [OnScanStep coord dwell_time] h1) as [[v | y] h2];
      [ apply IH | reflexivity ].
Qed.

(** [_scan] makes the calls of its script, in order, and stops at the
    first that raises. *)
Lemma scan_is_script (self : PerpendicularAC)
    (coords : list (list Q)) (dwell_time : option Q) (h : list event) :
  _scan behaviour self coords dwell_time h
  = run (scan_calls self coords dwell_time) h.
Proof.
  unfold _scan, scan_calls.
  change (OnScanStart coords dwell_time :: ?l)
    with ([OnScanStart coords dwell_time] ++ l).
  rewrite run_script_app.
  unfold bind at 1. rewrite call_is_script.
  destruct (run [OnScanStart coords dwell_time] h) as [[u | x] h1];
    [ | reflexivity ].
  rewrite run_script_app.
  unfold bind at 1. rewrite scan_loop_is_script.
  destruct (run _ h1) as [[v | y] h2]; [ | reflexivity ].
  apply call_is_script.
Qed.

Lemma run_script_prefix (calls : list event) (h : list event) :
  exists n,
    n <= List.length calls
    /\ snd (run calls h) = h ++ firstn n calls
    /\ (fst (run calls h) = Return tt -> n = List.length calls).
Proof.
  revert h. induction calls as [ | e calls IH]; intros h; cbn [run_script].
  - exists 0. cbn. rewrite app_nil_r. repeat split; lia.
  - destruct (behaviour h e) as [x | ].
    + exists 1. cbn [snd fst firstn List.length].
      repeat split; [ lia | discriminate ].
    + destruct (IH (h ++ [e])) as (n & Hn & Hsnd & Hfst).
      exists (S n). cbn [firstn List.length].
      rewrite Hsnd, <- app_assoc. repeat split; [ lia | ].
      intros Hret. now rewrite Hfst.
Qed.

(** X10: whatever the hooks and the sub-collections do, the calls of a
    [_scan] are an initial part of its script ([on_scan_start], then per
    point the major move, the minor move and [on_scan_step], then
    [on_scan_complete]): nothing else is called and nothing out of order;
    a scan that returns has made them all. *)
Theorem scan_calls_only_its_script (self : PerpendicularAC)
    (coords : list (list Q)) (dwell_time : option Q) (h : list event) :
  exists n,
    n <= List.length (scan_calls self coords dwell_time)
    /\ snd (_scan behaviour self coords dwell_time h)
       = h ++ firstn n (scan_calls self coords dwell_time)
    /\ (fst (_scan behaviour self coords dwell_time h) = Return tt ->
        n = List.length (scan_calls self coords dwell_time)).
Proof.
  rewrite scan_is_script. apply run_script_prefix.
Qed.

(** A script that raises has made its calls up to the one that raised. *)
Lemma run_script_raises (calls : list event) (h h1 : list event) (x : exn) :
  run calls h = (Raise x, h1) ->
  exists before e after,
    calls = before ++ e :: after
    /\ all_return behaviour h before = true
    /\ behaviour (h ++ before) e = Some x
    /\ h1 = h ++ before ++ [e].
Proof.
  revert h. induction calls as [ | e calls IH]; intros h Hrun;
    cbn [run_script] in Hrun.
  - discriminate.
  - destruct (behaviour h e) as [y | ] eqn:Hb.
    + injection Hrun as <- <-. exists [], e, calls.
      rewrite app_nil_r. repeat split. exact Hb.
    + apply IH in Hrun as (before & e' & after & -> & Hret & Hraise & ->).
      exists (e :: before), e', after. cbn [app all_return]. rewrite Hb.
      rewrite <- !app_assoc in *. repeat split; assumption.
Qed.

(** X11: a scan that raises has stopped there: the error is the one of the
    last call made, every call before it returned, and nothing of the rest
    of the scan, [on_scan_complete] included, has been called. *)
Theorem scan_stops_at_first_failure (self : PerpendicularAC)
    (coords : list (list Q)) (dwell_time : option Q) (h h1 : list event)
    (x : exn) :
  _scan behaviour self coords dwell_time h = (Raise x, h1) ->
  exists before e after,
    scan_calls self coords dwell_time = before ++ e :: after
    /\ all_return behaviour h before = true
    /\ behaviour (h ++ before) e = Some x
    /\ h1 = h ++ before ++ [e].
Proof.
  rewrite scan_is_script. apply run_script_raises.
Qed.

End Scripts.

Section Edges.

Import PerpAC.
Local Open Scope nat_scope.

Variable assume_units : Q -> string -> Q.
Variable behaviour : list event -> event -> option exn.

(** X12: no recovery in [_move]: when the major collection's [move]
    raises, the error goes to the caller and the minor collection is not
    called. *)
Theorem move_major_failure_skips_minor (self : PerpendicularAC)
    (pos : list Q) (absolute : bool) (h : list event) (x : exn) :
  behaviour h (Move Major (firstn (_n_major_axes self) pos) (Some absolute))
  = Some x ->
  _move behaviour self pos absolute h
  = (Raise x,
     h ++ [Move Major (firstn (_n_major_axes self) pos) (Some absolute)]).
Proof.
  intros Hb. now rewrite move_unfolded, Hb.
Qed.

(** X13: how [_move] shares out a sequence of any length: the two
    sub-collections receive, between them, the sequence as given; the
    major one at most [_n_major_axes] entries, the minor one all the
    others, however many. *)
Theorem move_shares_out_the_sequence (self : PerpendicularAC) (pos : list Q)
    (absolute : bool) (h : list event) :
  behaviour h (Move Major (firstn (_n_major_axes self) pos) (Some absolute))
  = None ->
  exists major_pos minor_pos,
    snd (_move behaviour self pos absolute h)
    = h ++ [Move Major major_pos (Some absolute);
            Move Minor minor_pos (Some absolute)]
    /\ major_pos ++ minor_pos = pos
    /\ List.length major_pos = Nat.min (_n_major_axes self) (List.length pos)
    /\ List.length minor_pos = List.length pos - _n_major_axes self.
Proof.
  intros Hb. rewrite move_unfolded, Hb. cbn [snd].
  exists (firstn (_n_major_axes self) pos), (skipn (_n_major_axes self) pos).
  repeat split.
  - apply firstn_skipn.
  - apply length_firstn.
  - apply length_skipn.
Qed.

(** X14: splitting undoes joining: moving a composite to the position it
    reports moves each sub-collection to the position that sub-collection
    reports, provided the major collection reports one entry per axis. *)
Theorem move_to_reported_position (major minor : AxisCollection)
    (absolute : bool) (h : list event) :
  List.length (ac_position major) = ac_len major ->
  behaviour h (Move Major (ac_position major) (Some absolute)) = None ->
  snd (_move behaviour (__init__ major minor)
             (position (__init__ major minor)) absolute h)
  = h ++ [Move Major (ac_position major) (Some absolute);
          Move Minor (ac_position minor) (Some absolute)].
Proof.
  intros Hlen Hb. rewrite move_unfolded.
  unfold move_calls, position, __init__.
  cbn [_major_axes _minor_axes _n_major_axes _n_minor_axes].
  assert (Hmajor : firstn (ac_len major) (ac_position major ++ ac_position minor)
                   = ac_position major).
  { rewrite <- Hlen, firstn_app, Nat.sub_diag, firstn_all, firstn_O.
    apply app_nil_r. }
  assert (Hminor : skipn (ac_len major) (ac_position major ++ ac_position minor)
                   = ac_position minor).
  { rewrite <- Hlen, skipn_app, Nat.sub_diag, skipn_all, skipn_O.
    reflexivity. }
  now rewrite Hmajor, Hminor, Hb.
Qed.

Lemma fold_min_le (n : nat) (l : list nat) (m : nat) :
  In m (n :: l) -> fold_right Nat.min n l <= m.
Proof.
  induction l as [ | a l IH]; cbn [fold_right].
  - intros [<- | []]. lia.
  - intros [<- | [<- | Hin]].
    + assert (fold_right Nat.min n l <= n) by (apply IH; now left). lia.
    + lia.
    + assert (fold_right Nat.min n l <= m) by (apply IH; now right). lia.
Qed.

Lemma izip_star_length_le (coords : list (list Q)) (col : list Q) :
  In col coords -> List.length (izip_star coords) <= List.length col.
Proof.
  destruct coords as [ | c cs]; [ intros [] | ].
  unfold izip_star. intros Hin. rewrite length_map, length_seq.
  apply fold_min_le.
  destruct Hin as [<- | Hin]; [ now left | right ].
  now apply in_map.
Qed.

(** X15: a scan has no more points than its shortest coordinate sequence:
    entries beyond that length are dropped without an error, and every
    point has one entry per sequence. *)
Theorem scan_points_bounded_by_shortest (coords : list (list Q)) :
  (forall col, In col coords ->
     List.length (izip_star coords) <= List.length col)
  /\ (forall point, In point (izip_star coords) ->
        List.length point = List.length coords).
Proof.
  split.
  - intros col. apply izip_star_length_le.
  - destruct coords as [ | c cs]; [ intros ? [] | ].
    unfold izip_star. intros point Hin.
    apply in_map_iff in Hin as (k & <- & _).
    apply length_map.
Qed.

(** X16: a scan over no coordinate sequences, or over sequences of which
    one is empty, moves nothing: when the hooks return, its calls are
    [on_scan_start] and [on_scan_complete] alone. *)
Theorem scan_without_points (self : PerpendicularAC)
    (coords : list (list Q)) (dwell_time : option Q) (h : list event) :
  coords = [] \/ In [] coords ->
  behaviour h (OnScanStart coords dwell_time) = None ->
  behaviour (h ++ [OnScanStart coords dwell_time])
            (OnScanComplete coords dwell_time) = None ->
  _scan behaviour self coords dwell_time h
  = (Return tt,
     h ++ [OnScanStart coords dwell_time; OnScanComplete coords dwell_time]).
Proof.
  intros Hempty Hstart Hend.
  assert (Hpoints : izip_star coords = []).
  { destruct Hempty as [-> | Hin]; [ reflexivity | ].
    apply length_zero_iff_nil.
    pose proof (izip_star_length_le coords [] Hin) as Hle.
    cbn in Hle. lia. }
  rewrite scan_is_script. unfold scan_calls. rewrite Hpoints.
  cbn [flat_map app run_script]. rewrite Hstart, Hend.
  now rewrite <- app_assoc.
Qed.

(** X17: [_raster] never reaches a sub-collection: whatever its
    arguments and however it ends, it has made no call. *)
Theorem raster_makes_no_call (self : PerpendicularAC) (start stop : list Q)
    (num : list nat) (dwell_time : option Q) (strict : bool)
    (h : list event) :
  snd (_raster assume_units behaviour self start stop num dwell_time strict h)
  = h.
Proof.
  unfold _raster.
  destruct (major_axes_grid assume_units self start stop num)
    as [[ | coord grid] | e]; reflexivity.
Qed.

End Edges.

(** * More on the plan of [_raster] *)

Section RasterPlan.

Import PerpAC.
Local Open Scope nat_scope.

Variable assume_units : Q -> string -> Q.
Variable behaviour : list event -> event -> option exn.

Local Abbreviation steps := (major_axis_steps assume_units).
Local Abbreviation grid_of := (major_axes_grid assume_units).

Lemma prod_zero_iff (l : list nat) : prod l = 0 <-> In 0 l.
Proof.
  induction l as [ | d l IH].
  - cbn. split; [ discriminate | intros [] ].
  - rewrite prod_cons. cbn [In]. rewrite <- IH. nia.
Qed.

Lemma length_pick (grids : list (list Q)) (J : list nat) :
  List.length (pick grids J) = List.length grids.
Proof.
  unfold pick. now rewrite length_map, length_seq.
Qed.

(** The plan, row by row, for arguments that cover the major axes. *)
Lemma plan_by_rows (self : PerpendicularAC) (start stop : list Q)
    (num : list nat) :
  _n_major_axes self <= List.length start ->
  _n_major_axes self <= List.length stop ->
  _n_major_axes self <= List.length num ->
  _n_major_axes self <= List.length (ac_units (_major_axes self)) ->
  List.length (steps self start stop num) = _n_major_axes self
  /\ grid_of self start stop num
     = Return (map (fun r =>
                      pick (steps self start stop num)
                           (swap01 (rev (unravel
                              (rev (swap01 (map (@List.length Q)
                                                (steps self start stop num))))
                              r))))
                   (seq 0 (prod (firstn (_n_major_axes self) num)))).
Proof.
  intros Hstart Hstop Hnum Hunits.
  assert (Hlens : map (@List.length Q) (steps self start stop num)
                  = firstn (_n_major_axes self) num).
  { unfold major_axis_steps. now apply izip4_grid_lengths. }
  assert (Hn : List.length (steps self start stop num) = _n_major_axes self).
  { rewrite <- (length_map (@List.length Q)), Hlens, length_firstn. lia. }
  split; [ exact Hn | ].
  unfold major_axes_grid. rewrite <- Hn at 2.
  apply grid_rows. now rewrite Hlens.
Qed.

(** X18: for arguments that cover the major axes, the plan has as many
    coordinates as the product of the major point counts, and every
    coordinate has one entry per major axis. *)
Theorem raster_plan_size (self : PerpendicularAC) (start stop : list Q)
    (num : list nat) :
  _n_major_axes self <= List.length start ->
  _n_major_axes self <= List.length stop ->
  _n_major_axes self <= List.length num ->
  _n_major_axes self <= List.length (ac_units (_major_axes self)) ->
  exists plan,
    grid_of self start stop num = Return plan
    /\ List.length plan = prod (firstn (_n_major_axes self) num)
    /\ (forall coord, In coord plan ->
          List.length coord = _n_major_axes self).
Proof.
  intros Hstart Hstop Hnum Hunits.
  destruct (plan_by_rows self start stop num Hstart Hstop Hnum Hunits)
    as [Hn Hplan].
  eexists. split; [ exact Hplan | ]. split.
  - now rewrite length_map, length_seq.
  - intros coord Hin. apply in_map_iff in Hin as (r & <- & _).
    now rewrite length_pick.
Qed.

(** X19: how [_raster] ends on arguments that cover the major axes: when
    one of the major point counts is zero the plan is empty and the call
    returns, having done nothing; otherwise it raises the
    [AttributeError] of its first step. *)
Theorem raster_outcome (self : PerpendicularAC) (start stop : list Q)
    (num : list nat) (dwell_time : option Q) (strict : bool)
    (h : list event) :
  _n_major_axes self <= List.length start ->
  _n_major_axes self <= List.length stop ->
  _n_major_axes self <= List.length num ->
  _n_major_axes self <= List.length (ac_units (_major_axes self)) ->
  (In 0 (firstn (_n_major_axes self) num) ->
     _raster assume_units behaviour self start stop num dwell_time strict h
     = (Return tt, h))
  /\ (~ In 0 (firstn (_n_major_axes self) num) ->
        _raster assume_units behaviour self start stop num dwell_time strict h
        = (Raise (AttributeError "_major_axis"), h)).
Proof.
  intros Hstart Hstop Hnum Hunits.
  destruct (plan_by_rows self start stop num Hstart Hstop Hnum Hunits)
    as [_ Hplan].
  unfold _raster. rewrite Hplan.
  split; intros Hzero; rewrite <- prod_zero_iff in Hzero.
  - now rewrite Hzero.
  - destruct (prod (firstn (_n_major_axes self) num)); [ now elim Hzero | ].
    reflexivity.
Qed.

Lemma izip4_short_first (F : Q * Q * nat * string -> list Q)
    (a b : list Q) (c : list nat) (d : list string) :
  (forall t, List.length (F t) = snd (fst t)) ->
  List.length a <= List.length b -> List.length a <= List.length c ->
  List.length a <= List.length d ->
  map (@List.length Q) (map F (izip4 a b c d)) = firstn (List.length a) c.
Proof.
  intros HF. revert b c d.
  induction a as [ | x a IH]; intros b c d Hb Hc Hd.
  - reflexivity.
  - destruct b as [ | y b]; [ simpl in Hb; lia | ].
    destruct c as [ | z c]; [ simpl in Hc; lia | ].
    destruct d as [ | w d]; [ simpl in Hd; lia | ].
    simpl in Hb, Hc, Hd.
    cbn [izip4 map List.length firstn]. rewrite HF, IH by lia. reflexivity.
Qed.

(** X20: with fewer start values than major axes, and no major point
    count of zero, [_raster] fails in numpy: the grid has too few items
    for the reshape, which raises a [ValueError]. *)
Theorem raster_short_start_ValueError (self : PerpendicularAC)
    (start stop : list Q) (num : list nat) (dwell_time : option Q)
    (strict : bool) (h : list event) :
  List.length start < _n_major_axes self ->
  _n_major_axes self <= List.length stop ->
  _n_major_axes self <= List.length num ->
  _n_major_axes self <= List.length (ac_units (_major_axes self)) ->
  ~ In 0 (firstn (_n_major_axes self) num) ->
  exists msg,
    _raster assume_units behaviour self start stop num dwell_time strict h
    = (Raise (ValueError msg), h).
Proof.
  intros Hstart Hstop Hnum Hunits Hzero.
  rewrite <- prod_zero_iff in Hzero.
  set (n := _n_major_axes self) in *.
  set (L := firstn n num) in *.
  assert (HL : List.length L = n) by (unfold L; rewrite length_firstn; lia).
  assert (Hlens : map (@List.length Q) (steps self start stop num)
                  = firstn (List.length start) L).
  { unfold major_axis_steps. fold n. fold L.
    rewrite (@firstn_all2 _ n start) by lia.
    apply izip4_short_first.
    - intros [[[s e] m] u]. apply length_linspace.
    - rewrite length_firstn. lia.
    - lia.
    - lia. }
  assert (Hg : List.length (steps self start stop num) = List.length start).
  { rewrite <- (length_map (@List.length Q)), Hlens, length_firstn. lia. }
  assert (Hsplit : prod L = prod (firstn (List.length start) L)
                            * prod (skipn (List.length start) L)).
  { now rewrite <- prod_app, firstn_skipn. }
  assert (Hsize : prod (shape (transpose (np_array
                          (meshgrid (steps self start stop num)))))
                  <> prod [prod L; n]).
  { change (prod [prod L; n]) with (prod L * (n * 1)).
    destruct (steps self start stop num) as [ | g grids] eqn:Hsteps.
    - cbn. nia.
    - unfold transpose. cbn [shape].
      rewrite stacked_shape by discriminate.
      rewrite prod_rev, prod_cons, prod_swap01, Hlens, Hg, Hsplit.
      rewrite Hsplit in Hzero.
      set (A := prod (firstn (List.length start) L)) in *.
      set (R := prod (skipn (List.length start) L)) in *.
      assert (HA : 1 <= A) by nia.
      assert (HR : 1 <= R) by nia.
      assert (H1 : List.length start * A < n * A)
        by (apply Nat.mul_lt_mono_pos_r; lia).
      assert (H2 : n * A * 1 <= n * A * R)
        by (apply Nat.mul_le_mono_l; exact HR).
      lia. }
  exists "total size of new array must be unchanged"%string.
  unfold _raster, major_axes_grid, reshape. fold n. fold L.
  apply Nat.eqb_neq in Hsize. now rewrite Hsize.
Qed.

Lemma izip4_nth (B : Type) (F : Q * Q * nat * string -> B) (default : B)
    (n i : nat) (a b : list Q) (c : list nat) (d : list string) :
  i < n -> n <= List.length a -> n <= List.length b ->
  n <= List.length c -> n <= List.length d ->
  nth i (map F (izip4 (firstn n a) (firstn n b) (firstn n c) d)) default
  = F (nth i a 0%Q, nth i b 0%Q, nth i c 0, nth i d ""%string).
Proof.
  revert i a b c d. induction n as [ | n IH]; intros i a b c d Hi Ha Hb Hc Hd.
  - lia.
  - destruct a as [ | x a]; [ simpl in Ha; lia | ].
    destruct b as [ | y b]; [ simpl in Hb; lia | ].
    destruct c as [ | z c]; [ simpl in Hc; lia | ].
    destruct d as [ | w d]; [ simpl in Hd; lia | ].
    simpl in Ha, Hb, Hc, Hd. cbn [firstn izip4 map].
    destruct i as [ | i]; [ reflexivity | ].
    cbn [nth]. apply IH; lia.
Qed.

(** X21: the grid of each major axis is built from that axis's own start,
    stop, point count and unit.  It has as many points as requested; with
    two points or more it begins at the start and ends at the stop, and
    with a single point it is the start alone. *)
Theorem major_grid_of_axis (self : PerpendicularAC) (start stop : list Q)
    (num : list nat) (i : nat) :
  i < _n_major_axes self ->
  _n_major_axes self <= List.length start ->
  _n_major_axes self <= List.length stop ->
  _n_major_axes self <= List.length num ->
  _n_major_axes self <= List.length (ac_units (_major_axes self)) ->
  List.length (nth i (steps self start stop num) []) = nth i num 0
  /\ (2 <= nth i num 0 ->
        Qeq (nth 0 (nth i (steps self start stop num) []) 0%Q)
            (assume_units (nth i start 0%Q)
                          (nth i (ac_units (_major_axes self)) ""%string))
        /\ Qeq (nth (nth i num 0 - 1) (nth i (steps self start stop num) [])
                    0%Q)
               (assume_units (nth i stop 0%Q)
                             (nth i (ac_units (_major_axes self)) ""%string)))
  /\ (nth i num 0 = 1 ->
        nth i (steps self start stop num) []
        = [assume_units (nth i start 0%Q)
                        (nth i (ac_units (_major_axes self)) ""%string)]).
Proof.
  intros Hi Hstart Hstop Hnum Hunits.
  unfold major_axis_steps.
  rewrite izip4_nth by assumption.
  repeat split.
  - apply length_linspace.
  - now apply linspace_ends.
  - now apply linspace_ends.
  - intros ->. reflexivity.
Qed.

End RasterPlan.

(** * Lengths are not checked *)

Section LengthChecks.

Import PerpAC.
Local Open Scope nat_scope.

Variable assume_units : Q -> string -> Q.
Variable behaviour : list event -> event -> option exn.

(** C4, as the code has it: neither [_move] nor [_raster] compares the
    length of a sequence with the number of axes, and neither raises an
    error of its own for it.

    [_move], whatever the length: the major collection's [move] is invoked
    with the first [_n_major_axes] entries (all of them when there are
    fewer); when it raises, that error ends the call; when it returns, the
    minor collection's [move] is invoked with the entries after them, and
    the call ends as that one does.

    [_raster], whatever the lengths, as long as they cover the major
    axes: the plan is built from the first [_n_major_axes] entries without
    an error, and when one of the major point counts is zero, so that the
    plan is empty, the call returns without touching a sub-collection. *)
Theorem move_and_raster_make_no_length_check (self : PerpendicularAC)
    (pos : list Q) (absolute : bool) (start stop : list Q) (num : list nat)
    (dwell_time : option Q) (strict : bool) (h : list event) :
  _move behaviour self pos absolute h
  = match behaviour h (Move Major (firstn (_n_major_axes self) pos)
                            (Some absolute)) with
    | Some x =>
      (Raise x,
       h ++ [Move Major (firstn (_n_major_axes self) pos) (Some absolute)])
    | None =>
      (match behaviour
               (h ++ [Move Major (firstn (_n_major_axes self) pos)
                           (Some absolute)])
               (Move Minor (skipn (_n_major_axes self) pos) (Some absolute))
       with
       | Some y => Raise y
       | None => Return tt
       end,
       h ++ [Move Major (firstn (_n_major_axes self) pos) (Some absolute);
             Move Minor (skipn (_n_major_axes self) pos) (Some absolute)])
    end
  /\ (_n_major_axes self <= List.length start ->
      _n_major_axes self <= List.length stop ->
      _n_major_axes self <= List.length num ->
      _n_major_axes self <= List.length (ac_units (_major_axes self)) ->
      (exists plan,
         major_axes_grid assume_units self start stop num = Return plan
         /\ List.length plan = prod (firstn (_n_major_axes self) num))
      /\ (In 0 (firstn (_n_major_axes self) num) ->
          _raster assume_units behaviour self start stop num dwell_time
                  strict h
          = (Return tt, h))).
Proof.
  split.
  - apply move_unfolded.
  - intros Hstart Hstop Hnum Hunits.
    destruct (plan_by_rows assume_units self start stop num
                           Hstart Hstop Hnum Hunits) as [_ Hplan].
    split.
    + eexists. split; [ exact Hplan | ].
      now rewrite length_map, length_seq.
    + intros Hzero. apply prod_zero_iff in Hzero.
      unfold _raster. rewrite Hplan, Hzero. reflexivity.
Qed.

End LengthChecks.

(** * A response that comes late *)

Section LateResponse.

Import ThorLabs.

Variable Packet : Type.
Variable pack : Packet -> bytes.
Variable file : transport.
Variable clock : nat -> Q.

Local Abbreviation loop := (retry_loop pack file clock).

Lemma Qlt_bool_false (a b : Q) : (b <= a)%Q -> Qlt_bool a b = false.
Proof.
  intros Hle. unfold Qlt_bool. apply Qle_bool_iff in Hle. now rewrite Hle.
Qed.

(** X22: the loop ends at the first response.  When the first [k] reads
    bring nothing, the timeout is not yet passed at the clock readings
    that follow them, and the next read brings something, the loop ends
    with that response after exactly [k + 1] writes and reads, and without
    reading the clock again. *)
Theorem retry_loop_picks_up_late_response (k : nat) (p : Packet)
    (timeout : timeout_arg) (t0 : Q) (s : io) (resp : bytes) :
  (forall j, (j <= k)%nat ->
     write_result file (List.length (written s) + j) (pack p) = Return tt) ->
  (forall j, (j < k)%nat -> read_result file (reads s + j) = Return []) ->
  read_result file (reads s + k) = Return resp ->
  resp <> [] ->
  is_none timeout = false ->
  (forall j, (j < k)%nat ->
     (clock (ticks s + j) - t0 <= as_number timeout)%Q) ->
  loop (S k) p timeout t0 s
  = Some (Return resp,
          {| written := written s ++ repeat (pack p) (S k);
             reads := reads s + S k;
             ticks := ticks s + k |}).
Proof.
  revert s. induction k as [ | k IH];
    intros s Hwrite Hempty Hresp Hne Hnone Hclock.
  - rewrite loop_step.
    rewrite <- (Nat.add_0_r (List.length (written s))), Hwrite by lia.
    rewrite <- (Nat.add_0_r (reads s)) at 1. rewrite Hresp.
    rewrite truthy_bytes_nonempty by exact Hne. cbn [orb repeat].
    do 2 f_equal. f_equal; lia.
  - rewrite loop_step.
    rewrite <- (Nat.add_0_r (List.length (written s))), Hwrite by lia.
    rewrite <- (Nat.add_0_r (reads s)) at 1. rewrite Hempty by lia.
    rewrite Hnone. cbn [truthy_bytes orb].
    rewrite Qlt_bool_false
      by (rewrite <- (Nat.add_0_r (ticks s)); apply Hclock; lia).
    rewrite IH; cbn [written reads ticks].
    + do 2 f_equal. f_equal; [ | lia | lia ].
      now rewrite <- app_assoc.
    + intros j Hj. rewrite length_app. cbn [List.length].
      replace (List.length (written s) + 1 + j)%nat
        with (List.length (written s) + S j)%nat by lia.
      apply Hwrite. lia.
    + intros j Hj.
      replace (S (reads s) + j)%nat with (reads s + S j)%nat by lia.
      apply Hempty. lia.
    + replace (S (reads s) + k)%nat with (reads s + S k)%nat by lia.
      exact Hresp.
    + exact Hne.
    + exact Hnone.
    + intros j Hj.
      replace (S (ticks s) + j)%nat with (ticks s + S j)%nat by lia.
      apply Hclock. lia.
Qed.

End LateResponse.

(** * Further runs *)

Section MoreRuns.

Import ThorLabs PerpAC.
Local Open Scope nat_scope.

Lemma querypacket_single_attempt_run :
  querypacket wire parse ident (answering [Byte.x01]) ticking 3 []
              None (TNumber 5) io_start
  = Some (Return (Some [Byte.x01]),
          {| written := [[]]; reads := 1; ticks := 1 |}).
Proof.
  apply (@querypacket_single_attempt bytes wire parse ident
           (answering [Byte.x01]) ticking 2 [] None (TNumber 5) io_start
           [Byte.x01]).
  - reflexivity.
  - reflexivity.
  - right. discriminate.
Defined.

Lemma retry_loop_resends_every_attempt_run :
  exists k,
    1 <= k <= 6
    /\ [[]; []; []; []] = [] ++ repeat (wire []) k
    /\ 4 = 0 + k
    /\ 0 + k - 1 <= 4 <= 0 + k.
Proof.
  apply (@retry_loop_resends_every_attempt bytes wire silent ticking 6 []
           (TNumber 2) 0%Q io_start
           {| written := [[]; []; []; []]; reads := 4; ticks := 4 |} []).
  reflexivity.
Defined.

Lemma querypacket_not_before_timeout_run :
  exists t,
    4 = S t
    /\ (as_number (normalize_timeout (TNumber 2)) < ticking t - ticking 0)%Q.
Proof.
  apply (@querypacket_not_before_timeout bytes wire silent ticking 6 []
           (TNumber 2) io_start
           {| written := [[]; []; []]; reads := 3; ticks := 4 |}).
  - reflexivity.
  - discriminate.
Defined.


Lemma querypacket_returns_only_expected_run :
  exists pkt : bytes, Some [Byte.x01] = Some pkt /\ ident pkt = 1%Z.
Proof.
  apply (@querypacket_returns_only_expected bytes wire parse ident
           (answering [Byte.x01]) ticking 1 [] 1%Z TNone io_start
           {| written := [[]]; reads := 1; ticks := 1 |} (Some [Byte.x01])).
  reflexivity.
Defined.

Lemma composite_keeps_consistency_run :
  consistent (as_collection (__init__ major2 minor1)).
Proof.
  apply (@composite_keeps_consistency major2 minor1);
    repeat split; reflexivity.
Defined.

Lemma is_hardware_scannable_counts_run :
  (is_hardware_scannable composite21 <> 0%Z <-> false || true = true)
  /\ (is_hardware_scannable composite21 = 2%Z <-> false && true = true).
Proof.
  apply (@is_hardware_scannable_counts composite21 false true); reflexivity.
Defined.

Lemma scan_stops_at_first_failure_run :
  exists before e after,
    scan_calls composite21 [[1]; [2]; [3]]%Q None = before ++ e :: after
    /\ all_return minor_stuck [] before = true
    /\ minor_stuck ([] ++ before) e = Some (AxisError "minor axes stuck")
    /\ [OnScanStart [[1]; [2]; [3]]%Q None;
        Move Major [1; 2]%Q (Some true); Move Minor [3%Q] (Some true)]
       = [] ++ before ++ [e].
Proof.
  apply (@scan_stops_at_first_failure minor_stuck composite21
           [[1]; [2]; [3]]%Q None []).
  reflexivity.
Defined.

Lemma move_major_failure_skips_minor_run :
  _move major_stuck composite21 [1; 2; 3]%Q true []
  = (Raise (AxisError "major axes stuck"),
     [Move Major [1; 2]%Q (Some true)]).
Proof.
  apply (@move_major_failure_skips_minor major_stuck composite21
           [1; 2; 3]%Q true []).
  reflexivity.
Defined.

Lemma move_shares_out_the_sequence_run :
  exists major_pos minor_pos,
    snd (_move obedient composite21 [1; 2; 3; 4]%Q true [])
    = [] ++ [Move Major major_pos (Some true);
             Move Minor minor_pos (Some true)]
    /\ major_pos ++ minor_pos = [1; 2; 3; 4]%Q
    /\ List.length major_pos = Nat.min 2 4
    /\ List.length minor_pos = 4 - 2.
Proof.
  apply (@move_shares_out_the_sequence obedient composite21
           [1; 2; 3; 4]%Q true []).
  reflexivity.
Defined.

Lemma move_to_reported_position_run :
  snd (_move obedient (__init__ major2 minor1)
             (position (__init__ major2 minor1)) false [])
  = [Move Major [0; 0]%Q (Some false); Move Minor [0%Q] (Some false)].
Proof.
  apply (@move_to_reported_position obedient major2 minor1 false []);
    reflexivity.
Defined.

Lemma scan_points_bounded_by_shortest_run :
  List.length (izip_star [[1; 2]; [3]]%Q) <= List.length [3%Q].
Proof.
  apply (proj1 (@scan_points_bounded_by_shortest [[1; 2]; [3]]%Q)).
  simpl. right. left. reflexivity.
Defined.

Lemma scan_without_points_run :
  _scan obedient composite21 [[1; 2]; []; [3]]%Q None []
  = (Return tt,
     [OnScanStart [[1; 2]; []; [3]]%Q None;
      OnScanComplete [[1; 2]; []; [3]]%Q None]).
Proof.
  apply (@scan_without_points obedient composite21 [[1; 2]; []; [3]]%Q
           None []).
  - right. simpl. right. left. reflexivity.
  - reflexivity.
  - reflexivity.
Defined.

Lemma raster_plan_size_run :
  exists plan,
    major_axes_grid bare_magnitude composite21 [0; 0; 0]%Q [1; 2; 1]%Q
                    [2; 3; 3]
    = Return plan
    /\ List.length plan = 6
    /\ (forall coord, In coord plan -> List.length coord = 2).
Proof.
  apply (@raster_plan_size bare_magnitude composite21 [0; 0; 0]%Q
           [1; 2; 1]%Q [2; 3; 3]); simpl; lia.
Defined.

Lemma raster_outcome_run :
  _raster bare_magnitude obedient composite21 [0; 0; 0]%Q [1; 2; 1]%Q
          [2; 0; 3] None true []
  = (Return tt, []).
Proof.
  apply (proj1 (@raster_outcome bare_magnitude obedient composite21
                  [0; 0; 0]%Q [1; 2; 1]%Q [2; 0; 3] None true []
                  (le_S _ _ (le_n 2)) (le_S _ _ (le_n 2))
                  (le_S _ _ (le_n 2)) (le_n 2))).
  simpl. right. left. reflexivity.
Defined.

Lemma raster_short_start_ValueError_run :
  exists msg,
    _raster bare_magnitude obedient composite21 [0%Q] [1; 2; 1]%Q [2; 3; 3]
            None true []
    = (Raise (ValueError msg), []).
Proof.
  apply (@raster_short_start_ValueError bare_magnitude obedient composite21
           [0%Q] [1; 2; 1]%Q [2; 3; 3] None true []); simpl; lia.
Defined.

Lemma major_grid_of_axis_run :
  List.length (nth 1 (major_axis_steps bare_magnitude composite21
                        [0; 0; 0]%Q [1; 2; 1]%Q [2; 3; 3]) [])
  = 3.
Proof.
  apply (proj1 (@major_grid_of_axis bare_magnitude composite21
                  [0; 0; 0]%Q [1; 2; 1]%Q [2; 3; 3] 1
                  (le_n 2) (le_S _ _ (le_n 2)) (le_S _ _ (le_n 2))
                  (le_S _ _ (le_n 2)) (le_n 2))).
Defined.

(** C4 fails on the code.  A sequence of one entry given to the [_move] of
    a composite of three axes raises nothing, and both sub-collections are
    moved; sequences of two entries given to its [_raster] raise nothing
    either. *)
Lemma move_and_raster_accept_any_length :
  (List.length [1%Q] <> __len__ composite21
   /\ _move obedient composite21 [1%Q] true []
      = (Return tt, [Move Major [1%Q] (Some true); Move Minor [] (Some true)]))
  /\ (List.length [0; 0]%Q <> __len__ composite21
      /\ List.length [1; 2]%Q <> __len__ composite21
      /\ List.length [2; 0] <> __len__ composite21
      /\ _raster bare_magnitude obedient composite21 [0; 0]%Q [1; 2]%Q [2; 0]
                 None true []
         = (Return tt, [])).
Proof.
  split.
  - split; [ discriminate | reflexivity ].
  - split; [ discriminate | ].
    split; [ discriminate | ].
    split; [ discriminate | reflexivity ].
Qed.

Lemma move_and_raster_make_no_length_check_run :
  _raster bare_magnitude obedient composite21 [0; 0]%Q [1; 2]%Q [2; 0]
          None true []
  = (Return tt, []).
Proof.
  apply (proj2 (@move_and_raster_make_no_length_check bare_magnitude obedient
                  composite21 [1%Q] true [0; 0]%Q [1; 2]%Q [2; 0] None true [])
               (le_n 2) (le_n 2) (le_n 2) (le_n 2)).
  simpl. right. left. reflexivity.
Defined.

Lemma retry_loop_picks_up_late_response_run :
  retry_loop wire (replying_at 2 [Byte.x01]) ticking 3 [Byte.x07]
             (TNumber 5) 0%Q io_start
  = Some (Return [Byte.x01],
          {| written := [[Byte.x07]; [Byte.x07]; [Byte.x07]];
             reads := 3; ticks := 2 |}).
Proof.
  apply (@retry_loop_picks_up_late_response bytes wire
           (replying_at 2 [Byte.x01]) ticking 2 [Byte.x07] (TNumber 5) 0%Q
           io_start [Byte.x01]).
  - reflexivity.
  - intros j Hj. destruct j as [ | [ | j]]; [ reflexivity | reflexivity | lia ].
  - reflexivity.
  - discriminate.
  - reflexivity.
  - intros j Hj. destruct j as [ | [ | j]];
      [ discriminate | discriminate | lia ].
Defined.

End MoreRuns.
